(** * yt2mp3: the conversion job store, the conversion pipeline and the
      bulk routes, embedded from [server/storage.ts] (the class
      [MemStorage], the handlers of [registerRoutes] and the function
      [processConversion]) and [shared/schema.ts].

    The in-memory store [MemStorage] holds a JavaScript [Map] from job
    identifiers to [Conversion] records; every method body runs to
    completion between two [await]s, so a method is a function from the
    store to a result and a new store.  The pipeline [processConversion]
    is a coroutine: it is modelled by the stage it is suspended in and a
    step function for the event that resumes it.  The progress listener
    it registers on the transcoder is a second entry point into the
    store, which stays registered after the coroutine has moved on. *)

From Stdlib Require Import ZArith QArith Qround Lqa.
From stdpp Require Import gmap strings list fin_maps pretty.
From stdpp Require Import sorting.
From Stdlib Require Import Ascii.

Local Open Scope string_scope.
Local Open Scope Z_scope.

(** ** Data model ([shared/schema.ts]) *)

(** A row of the [conversions] table ([typeof conversions.$inferSelect]).
    Columns declared without [notNull()] are nullable: [None] is [null].
    Identifiers, percentages, byte sizes and timestamps are JavaScript
    numbers holding integers (far below 2^53, where their arithmetic is
    exact); a [Date] is its millisecond count. *)
Record Conversion := mkConversion {
  id : Z;
  url : string;
  title : option string;
  status : string;
  progress : option Z;
  filePath : option string;
  fileName : option string;
  fileSize : option Z;
  errorMessage : option string;
  createdAt : option Z;
  completedAt : option Z;
}.

(** [InsertConversion]: the [url] column picked from the insert schema. *)
Record InsertConversion := mkInsert { ins_url : string }.

(** [Partial<Conversion>]: every field optional; [Some v] is a key the
    object literal supplies, [None] a key it does not have. *)
Record Updates := mkUpdates {
  u_id : option Z;
  u_url : option string;
  u_title : option (option string);
  u_status : option string;
  u_progress : option (option Z);
  u_filePath : option (option string);
  u_fileName : option (option string);
  u_fileSize : option (option Z);
  u_errorMessage : option (option string);
  u_createdAt : option (option Z);
  u_completedAt : option (option Z);
}.

(** The empty object literal [{}]. *)
Definition no_updates : Updates :=
  mkUpdates None None None None None None None None None None None.

(** The names of the columns, and a column's value in a record or its
    presence in a partial record. *)
Inductive field :=
  | FId | FUrl | FTitle | FStatus | FProgress | FFilePath | FFileName
  | FFileSize | FErrorMessage | FCreatedAt | FCompletedAt.

Inductive value :=
  | VNum (n : option Z)
  | VStr (s : option string).

Definition field_value (f : field) (c : Conversion) : value :=
  match f with
  | FId => VNum (Some (id c))
  | FUrl => VStr (Some (url c))
  | FTitle => VStr (title c)
  | FStatus => VStr (Some (status c))
  | FProgress => VNum (progress c)
  | FFilePath => VStr (filePath c)
  | FFileName => VStr (fileName c)
  | FFileSize => VNum (fileSize c)
  | FErrorMessage => VStr (errorMessage c)
  | FCreatedAt => VNum (createdAt c)
  | FCompletedAt => VNum (completedAt c)
  end.

Definition supplied (f : field) (u : Updates) : option value :=
  match f with
  | FId => VNum ∘ Some <$> u_id u
  | FUrl => VStr ∘ Some <$> u_url u
  | FTitle => VStr <$> u_title u
  | FStatus => VStr ∘ Some <$> u_status u
  | FProgress => VNum <$> u_progress u
  | FFilePath => VStr <$> u_filePath u
  | FFileName => VStr <$> u_fileName u
  | FFileSize => VNum <$> u_fileSize u
  | FErrorMessage => VStr <$> u_errorMessage u
  | FCreatedAt => VNum <$> u_createdAt u
  | FCompletedAt => VNum <$> u_completedAt u
  end.

(** The object spread [{ ...existing, ...updates }]: a key of [updates]
    overrides the same key of [existing]. *)
Definition spread (existing : Conversion) (updates : Updates) : Conversion :=
  {| id := default (id existing) (u_id updates);
     url := default (url existing) (u_url updates);
     title := default (title existing) (u_title updates);
     status := default (status existing) (u_status updates);
     progress := default (progress existing) (u_progress updates);
     filePath := default (filePath existing) (u_filePath updates);
     fileName := default (fileName existing) (u_fileName updates);
     fileSize := default (fileSize existing) (u_fileSize updates);
     errorMessage := default (errorMessage existing) (u_errorMessage updates);
     createdAt := default (createdAt existing) (u_createdAt updates);
     completedAt := default (completedAt existing) (u_completedAt updates) |}.

(** ** The job store ([class MemStorage]) *)

(** The [conversions] map and the identifier counter.  The [users] map
    and its counter are never touched by the conversion code. *)
Record MemStorage := mkStorage {
  conversions : gmap Z Conversion;
  currentConversionId : Z;
}.

(** [new MemStorage()] *)
Definition newMemStorage : MemStorage :=
  {| conversions := ∅; currentConversionId := 1 |}.

(** [createConversion]; [now] is the value of [new Date()]. *)
Definition createConversion (insertConversion : InsertConversion) (now : Z)
    (st : MemStorage) : Conversion * MemStorage :=
  let id := currentConversionId st in
  let conversion :=
    {| id := id;
       url := ins_url insertConversion;
       status := "pending";
       progress := Some 0;
       title := None;
       filePath := None;
       fileName := None;
       fileSize := None;
       errorMessage := None;
       createdAt := Some now;
       completedAt := None |} in
  (conversion,
   {| conversions := <[id := conversion]> (conversions st);
      currentConversionId := id + 1 |}).

Definition getConversion (id : Z) (st : MemStorage) : option Conversion :=
  conversions st !! id.

Definition updateConversion (id : Z) (updates : Updates) (st : MemStorage)
    : option Conversion * MemStorage :=
  match conversions st !! id with
  | None => (None, st)
  | Some existing =>
      let updated := spread existing updates in
      (Some updated,
       {| conversions := <[id := updated]> (conversions st);
          currentConversionId := currentConversionId st |})
  end.

(** [Map.prototype.delete] returns whether the key was present. *)
Definition deleteConversion (id : Z) (st : MemStorage) : bool * MemStorage :=
  (bool_decide (is_Some (conversions st !! id)),
   {| conversions := delete id (conversions st);
      currentConversionId := currentConversionId st |}).

(** ** External collaborators

    Pure functions of libraries the routes call: [ytdl.validateURL], the
    [z.string().url()] check of zod, [path.join(DOWNLOADS_DIR, ·)] and
    the title clean-up [.replace(/[^\w\s-]/g, "").trim()]. *)
Class Collaborators := {
  validateURL : string → bool;
  zod_url : string → bool;
  downloadsPath : string → string;
  sanitize : string → string;
}.

(** ** JavaScript numbers of the progress callback

    [progress.percent] is a double or [undefined].  Every finite double
    is a rational, so a finite value is modelled by a rational. *)
Inductive number :=
  | NaN
  | Infinity
  | NegInfinity
  | Finite (q : Q).

(** [x || 0]: [undefined], [NaN] and zero are falsy. *)
Definition or_zero (x : option number) : number :=
  match x with
  | None | Some NaN => Finite 0
  | Some (Finite q) => if Qeq_bool q 0 then Finite 0 else Finite q
  | Some n => n
  end.

(** [Math.round]: the nearest integer, a tie going towards +∞. *)
Definition Math_round (x : number) : number :=
  match x with
  | Finite q => Finite (inject_Z (Qfloor (q + (1 # 2))))
  | n => n
  end.

Definition Math_max (a b : number) : number :=
  match a, b with
  | NaN, _ | _, NaN => NaN
  | Infinity, _ | _, Infinity => Infinity
  | NegInfinity, n | n, NegInfinity => n
  | Finite p, Finite q => if Qle_bool p q then Finite q else Finite p
  end.

Definition Math_min (a b : number) : number :=
  match a, b with
  | NaN, _ | _, NaN => NaN
  | NegInfinity, _ | _, NegInfinity => NegInfinity
  | Infinity, n | n, Infinity => n
  | Finite p, Finite q => if Qle_bool p q then Finite p else Finite q
  end.

(** [Math.min(Math.max(Math.round(progress.percent || 0), 15), 95)] *)
Definition percentage_number (percent : option number) : number :=
  Math_min (Math_max (Math_round (or_zero percent)) (Finite 15)) (Finite 95).

(** The integer held by a number; [percentage_exact] shows that the
    number computed above always holds one. *)
Definition integer_of (n : number) : Z :=
  match n with
  | Finite q => Qfloor q
  | _ => 0
  end.

Definition percentage (percent : option number) : Z :=
  integer_of (percentage_number percent).

(** ** The conversion pipeline ([processConversion]) *)

(** A value caught by [catch (error)]. *)
Inductive thrown :=
  | ErrorObject (message : string)
  | OtherValue.

(** [error instanceof Error ? error.message : "Unknown error occurred"] *)
Definition error_message (error : thrown) : string :=
  match error with
  | ErrorObject message => message
  | OtherValue => "Unknown error occurred"
  end.

(** The object literals passed to [storage.updateConversion]. *)
Definition updates_processing : Updates :=
  {| u_status := Some "processing"; u_progress := Some (Some 5);
     u_id := None; u_url := None; u_title := None; u_filePath := None;
     u_fileName := None; u_fileSize := None; u_errorMessage := None;
     u_createdAt := None; u_completedAt := None |}.

Definition updates_title (title : string) : Updates :=
  {| u_title := Some (Some title); u_progress := Some (Some 15);
     u_id := None; u_url := None; u_status := None; u_filePath := None;
     u_fileName := None; u_fileSize := None; u_errorMessage := None;
     u_createdAt := None; u_completedAt := None |}.

Definition updates_progress (percentage : Z) : Updates :=
  {| u_progress := Some (Some percentage);
     u_id := None; u_url := None; u_title := None; u_status := None;
     u_filePath := None; u_fileName := None; u_fileSize := None;
     u_errorMessage := None; u_createdAt := None; u_completedAt := None |}.

Definition updates_completed (filePath fileName : string) (fileSize now : Z)
    : Updates :=
  {| u_status := Some "completed"; u_progress := Some (Some 100);
     u_filePath := Some (Some filePath); u_fileName := Some (Some fileName);
     u_fileSize := Some (Some fileSize); u_completedAt := Some (Some now);
     u_id := None; u_url := None; u_title := None; u_errorMessage := None;
     u_createdAt := None |}.

Definition updates_failed (error : thrown) : Updates :=
  {| u_status := Some "failed";
     u_errorMessage := Some (Some (error_message error));
     u_id := None; u_url := None; u_title := None; u_progress := None;
     u_filePath := None; u_fileName := None; u_fileSize := None;
     u_createdAt := None; u_completedAt := None |}.

(** Where a pipeline instance is suspended.
    - [Started conversion]: at the first [await]; [getConversion] has run
      (the body of an async method runs when it is called) and
      [conversion] is what it returned.
    - [FetchingInfo url]: [processing] is written, [ytdl.getInfo] pending.
    - [Transcoding fileName filePath]: the title is written, the ffmpeg
      promise pending.
    - [Measuring fileName filePath]: ffmpeg ended, [fs.stat] pending.
    - [Finished transcoder]: the function returned; [transcoder] tells
      whether it got as far as starting the transcoder.
    The listener of [.on("progress", ...)] is registered when the
    transcoder is started and is never removed: it exists in the stages
    [Transcoding], [Measuring] and [Finished true]. *)
Inductive stage :=
  | Started (conversion : option Conversion)
  | FetchingInfo (url : string)
  | Transcoding (fileName filePath : string)
  | Measuring (fileName filePath : string)
  | Finished (transcoder : bool).

(** Whether the progress listener is registered. *)
Definition listening (stg : stage) : bool :=
  match stg with
  | Transcoding _ _ | Measuring _ _ | Finished true => true
  | _ => false
  end.

(** What enters a pipeline: the settling of the promise it awaits, or a
    call of its progress listener.  [now] is [Date.now()] or [new Date()]
    at that moment; [InfoResolved] carries [info.videoDetails.title];
    [ProgressReported] carries [progress.percent]; [Threw] is a rejection
    or exception of the pending collaborator call, or of the synchronous
    code after it. *)
Inductive event :=
  | Resumed
  | InfoResolved (videoTitle : string) (now : Z)
  | ProgressReported (percent : option number)
  | TranscodeEnded
  | StatResolved (size : Z) (now : Z)
  | Threw (error : thrown).

Section Pipeline.
Context `{!Collaborators}.

(** The call [processConversion(conversionId)] up to its first [await]. *)
Definition processConversion (conversionId : Z) (st : MemStorage) : stage :=
  Started (getConversion conversionId st).

(** The [catch] block. *)
Definition pipeline_catch (conversionId : Z) (error : thrown)
    (st : MemStorage) : MemStorage :=
  (updateConversion conversionId (updates_failed error) st).2.

(** The listener [async (progress) => { ... }]: it computes the
    percentage and calls [updateConversion]; it looks neither at the
    job's status nor at whether the transcoder has ended. *)
Definition progress_listener (conversionId : Z) (percent : option number)
    (st : MemStorage) : MemStorage :=
  (updateConversion conversionId (updates_progress (percentage percent)) st).2.

(** One entry into the pipeline: the code run from one [await] to the
    next, or one call of the progress listener; [None] when the event is
    not one the stage can receive (no promise of that kind is pending,
    or no listener is registered). *)
Definition pipeline_step (conversionId : Z) (stg : stage) (ev : event)
    (st : MemStorage) : option (stage * MemStorage) :=
  match stg, ev with
  | _, ProgressReported percent =>
      if listening stg
      then Some (stg, progress_listener conversionId percent st)
      else None
  | Started None, Resumed => Some (Finished false, st)
  | Started (Some conversion), Resumed =>
      Some (FetchingInfo (url conversion),
            (updateConversion conversionId updates_processing st).2)
  | FetchingInfo _, InfoResolved videoTitle now =>
      let title := sanitize videoTitle in
      let st' := (updateConversion conversionId (updates_title title) st).2 in
      let fileName := title +:+ "_" +:+ pretty conversionId +:+ ".mp3" in
      let filePath :=
        pretty conversionId +:+ "_" +:+ pretty now +:+ ".mp3" in
      Some (Transcoding fileName filePath, st')
  | Transcoding fileName filePath, TranscodeEnded =>
      Some (Measuring fileName filePath, st)
  | Measuring fileName filePath, StatResolved fileSize now =>
      Some (Finished true,
            (updateConversion conversionId
               (updates_completed filePath fileName fileSize now) st).2)
  | FetchingInfo _, Threw error =>
      Some (Finished false, pipeline_catch conversionId error st)
  | Transcoding _ _, Threw error
  | Measuring _ _, Threw error =>
      Some (Finished true, pipeline_catch conversionId error st)
  | _, _ => None
  end.

(** A pipeline run alone on the store, fed the events in order; it
    stops at the first event its stage cannot receive. *)
Fixpoint pipeline_run (conversionId : Z) (stg : stage) (evs : list event)
    (st : MemStorage) : stage * MemStorage :=
  match evs with
  | [] => (stg, st)
  | ev :: evs' =>
      match pipeline_step conversionId stg ev st with
      | Some (stg', st') => pipeline_run conversionId stg' evs' st'
      | None => (stg, st)
      end
  end.
End Pipeline.

(** ** The routes ([registerRoutes]) *)

(** What a handler sends: [res.json(conversion)], [res.json(conversions)],
    [res.status(code).json({ message })] (code 200 for a plain
    [res.json({ message })]), or the attachment: the archive's name and
    its [archive.file(path, { name })] calls in order. *)
Inductive response :=
  | JsonConversion (conversion : Conversion)
  | JsonConversions (conversions : list Conversion)
  | JsonMessage (code : Z) (message : string)
  | Attachment (name : string) (files : list (string * string)).

(** The process: the shared store and the pipeline instances launched so
    far, by the identifier they were launched for. *)
Record system := mkSystem {
  store : MemStorage;
  pipelines : gmap Z stage;
}.

Definition boot : system := {| store := newMemStorage; pipelines := ∅ |}.

(** [parseInt] of a request parameter: an integer, or [None] for [NaN].
    No key of the map is [NaN], so [get] and [delete] miss on it. *)
Definition lookup_parsed (parsed : option Z) (st : MemStorage)
    : option Conversion :=
  parsed ≫= λ id, getConversion id st.

(** [s || fallback] on a nullable string: [null] and [""] are falsy. *)
Definition or_string (s : option string) (fallback : string) : string :=
  match s with
  | Some s => if bool_decide (s = "") then fallback else s
  | None => fallback
  end.

Section Routes.
Context `{!Collaborators}.

(** [storage.createConversion(...)] followed by
    [processConversion(conversion.id).catch(console.error)]. *)
Definition launch (url : string) (now : Z) (s : system)
    : Conversion * system :=
  let '(conversion, st) :=
    createConversion {| ins_url := url |} now (store s) in
  (conversion,
   {| store := st;
      pipelines :=
        <[id conversion := processConversion (id conversion) st]>
          (pipelines s) |}).

(** [POST /api/conversions] on a body the insert schema accepts. *)
Definition postConversion (url : string) (now : Z) (s : system)
    : response * system :=
  if validateURL url then
    let '(conversion, s') := launch url now s in
    (JsonConversion conversion, s')
  else (JsonMessage 400 "Invalid YouTube URL", s).

(** [bulkConversionSchema]: an array of 1 to 10 URL strings. *)
Definition bulkConversionSchema (urls : list string) : bool :=
  forallb zod_url urls
  && bool_decide (1 ≤ length urls)%nat
  && bool_decide (length urls ≤ 10)%nat.

(** One entry into the pipeline launched for [entry.1]; an entry the
    pipeline cannot receive does not happen. *)
Definition resume (entry : Z * event) (s : system) : system :=
  match pipelines s !! entry.1 with
  | Some stg =>
      match pipeline_step entry.1 stg entry.2 (store s) with
      | Some (stg', st') =>
          {| store := st'; pipelines := <[entry.1 := stg']> (pipelines s) |}
      | None => s
      end
  | None => s
  end.

(** What happens while a handler is suspended at an [await]: the event
    loop runs entries into the pipelines, in some order. *)
Definition during_await (entries : list (Z * event)) (s : system) : system :=
  foldl (λ s entry, resume entry s) s entries.

(** The [for (const url of validatedData.urls)] loop; [created] is the
    array [conversions] built so far.  An iteration is suspended at
    [await storage.createConversion(...)], when the record is stored and
    its pipeline not yet launched; [awaits] gives, iteration by
    iteration, the pipeline entries the event loop runs meanwhile (none
    once the list is used up).  The pipeline launched by the iteration
    before is among those that can be resumed there. *)
Fixpoint bulk_loop (urls : list string) (now : Z)
    (awaits : list (list (Z * event))) (created : list Conversion)
    (s : system) : response * system :=
  match urls with
  | [] => (JsonConversions created, s)
  | url :: rest =>
      if validateURL url then
        let '(conversion, st) :=
          createConversion {| ins_url := url |} now (store s) in
        let s1 :=
          during_await (hd [] awaits)
            {| store := st; pipelines := pipelines s |} in
        let s2 :=
          {| store := store s1;
             pipelines :=
               <[id conversion := processConversion (id conversion) (store s1)]>
                 (pipelines s1) |} in
        bulk_loop rest now (tl awaits) (created ++ [conversion]) s2
      else (JsonMessage 400 ("Invalid YouTube URL: " +:+ url), s)
  end.

(** [POST /api/conversions/bulk] on a body [{ urls }] of strings; a
    [parse] that throws lands in the [catch]. *)
Definition postBulk (urls : list string) (now : Z)
    (awaits : list (list (Z * event))) (s : system) : response * system :=
  if bulkConversionSchema urls then bulk_loop urls now awaits [] s
  else (JsonMessage 400 "Invalid request data", s).

(** The [filter] predicate of [POST /api/download/bulk]. *)
Definition is_valid (conv : option Conversion) : bool :=
  match conv with
  | Some conv =>
      bool_decide (status conv = "completed")
      && bool_decide (filePath conv ≠ None)
  | None => false
  end.

(** The [for (const conversion of validConversions)] loop;
    [pathExists path] is what [fs.pathExists] answers when the loop
    asks for [path]. *)
Fixpoint archive_files (pathExists : string → bool)
    (validConversions : list (option Conversion)) : list (string * string) :=
  match validConversions with
  | [] => []
  | conversion :: rest =>
      match conversion with
      | Some conversion =>
          match filePath conversion with
          | Some path =>
              if bool_decide (path ≠ "") && pathExists (downloadsPath path)
              then (downloadsPath path,
                    or_string (fileName conversion) "audio.mp3")
                   :: archive_files pathExists rest
              else archive_files pathExists rest
          | None => archive_files pathExists rest
          end
      | None => archive_files pathExists rest
      end
  end.

(** [POST /api/download/bulk] on a body whose [ids] is an array; each
    element is given by its [parseInt]. *)
Definition downloadBulk (ids : list (option Z)) (pathExists : string → bool)
    (st : MemStorage) : response :=
  if bool_decide (length ids = 0%nat) then JsonMessage 400 "Invalid file IDs"
  else
    let conversions := map (λ id, lookup_parsed id st) ids in
    let validConversions := List.filter is_valid conversions in
    if bool_decide (length validConversions = 0%nat)
    then JsonMessage 404 "No valid files found for download"
    else Attachment "converted_files.zip"
                    (archive_files pathExists validConversions).

(** [DELETE /api/conversions/:id]: the response, the path handed to
    [fs.remove] if any (its failure is ignored), and the store. *)
Definition deleteRoute (parsed : option Z) (st : MemStorage)
    : response * option string * MemStorage :=
  let conversion := lookup_parsed parsed st in
  let removed :=
    match conversion with
    | Some conversion =>
        match filePath conversion with
        | Some path =>
            if bool_decide (path ≠ "") then Some (downloadsPath path)
            else None
        | None => None
        end
    | None => None
    end in
  let '(deleted, st') :=
    match parsed with
    | Some id => deleteConversion id st
    | None => (false, st)
    end in
  if deleted
  then (JsonMessage 200 "Conversion deleted successfully", removed, st')
  else (JsonMessage 404 "Conversion not found", removed, st').

(** ** The process as a transition system

    Between two [await]s exactly one handler or pipeline runs.  An
    action is one such run: a validated submission of the single route,
    a deletion, or one entry into a pipeline (a resumption, or a call
    of its progress listener).  The pipelines are launched by the two
    submission handlers only, once per created job; a run of the bulk
    handler, with whatever the event loop interleaves, has the effect
    of a sequence of these actions ([bulk_loop_cons]). *)
Inductive action :=
  | Submit (url : string) (now : Z)
  | Delete (id : Z)
  | Advance (id : Z) (ev : event).

Definition sys_step (a : action) (s : system) : option system :=
  match a with
  | Submit url now =>
      if validateURL url then Some (launch url now s).2 else None
  | Delete id =>
      Some {| store := (deleteRoute (Some id) (store s)).2;
              pipelines := pipelines s |}
  | Advance id ev =>
      stg ← pipelines s !! id;
      '(stg', st') ← pipeline_step id stg ev (store s);
      Some {| store := st'; pipelines := <[id := stg']> (pipelines s) |}
  end.

Fixpoint sys_run (acts : list action) (s : system) : option system :=
  match acts with
  | [] => Some s
  | a :: acts' => sys_step a s ≫= sys_run acts'
  end.

Inductive reachable : system → Prop :=
  | reachable_boot : reachable boot
  | reachable_step s a s' :
      reachable s → sys_step a s = Some s' → reachable s'.
End Routes.

(** ** Vocabulary of the properties *)

(** One move of the job state machine:
    pending → processing → {completed, failed}, or no move. *)
Inductive forward : string → string → Prop :=
  | forward_stay s : forward s s
  | forward_start : forward "pending" "processing"
  | forward_complete : forward "processing" "completed"
  | forward_fail : forward "processing" "failed".

Definition terminal (s : string) : Prop := s = "completed" ∨ s = "failed".

Definition artifact_free (c : Conversion) : Prop :=
  filePath c = None ∧ fileName c = None ∧ fileSize c = None.

(** What the record of a job looks like while its pipeline is in a
    given stage.  A progress report that arrives after the completion
    write leaves the job [completed] with the report's percentage. *)
Definition consistent (stg : stage) (c : Conversion) : Prop :=
  match stg with
  | Started None => False
  | Started (Some _) =>
      status c = "pending" ∧ progress c = Some 0
      ∧ artifact_free c ∧ errorMessage c = None
  | FetchingInfo _ =>
      status c = "processing" ∧ progress c = Some 5
      ∧ artifact_free c ∧ errorMessage c = None
  | Transcoding _ _ | Measuring _ _ =>
      status c = "processing"
      ∧ (∃ v, progress c = Some v ∧ (15 ≤ v ≤ 95)%Z)
      ∧ artifact_free c ∧ errorMessage c = None
  | Finished transcoder =>
      (transcoder = true ∧ status c = "completed"
       ∧ (∃ v, progress c = Some v ∧ (v = 100 ∨ 15 ≤ v ≤ 95)%Z)
       ∧ is_Some (filePath c) ∧ is_Some (fileName c)
       ∧ is_Some (fileSize c) ∧ is_Some (completedAt c)
       ∧ errorMessage c = None)
      ∨ (status c = "failed" ∧ is_Some (errorMessage c) ∧ artifact_free c)
  end.

(** The invariant of the process: identifiers stay below the counter,
    and every stored job is the one its pipeline's stage describes. *)
Definition sys_inv (s : system) : Prop :=
  (∀ id c, getConversion id (store s) = Some c →
     (id < currentConversionId (store s))%Z
     ∧ ∃ stg, pipelines s !! id = Some stg ∧ consistent stg c)
  ∧ (∀ id stg, pipelines s !! id = Some stg →
       (id < currentConversionId (store s))%Z).

(** The percentage as §4.3 of the specification words it: the reported
    value rounded to the nearest integer, then clamped below at 15 and
    above at 95.  [r] is the integer nearest to [q] when
    [r - 1/2 ≤ q < r + 1/2] (a tie goes up); a report without a value,
    or whose value is not a number, counts as 0, and an infinite value
    is clamped like any value beyond the band. *)
Definition rounded_and_clamped (percent : option number) (z : Z) : Prop :=
  match percent with
  | Some (Finite q) =>
      ∃ r : Z,
        (inject_Z r - (1 # 2) <= q)%Q ∧ (q < inject_Z r + (1 # 2))%Q
        ∧ z = Z.min (Z.max r 15) 95
  | Some Infinity => z = 95
  | Some NegInfinity => z = 15
  | Some NaN | None => z = 15
  end.

(** The archive as §4.5 of the specification words it, one pass over the
    identifiers: an identifier contributes its job's artifact when the
    job exists, is completed, has an artifact location, and the backing
    file is still there. *)
Definition archive_entry `{!Collaborators} (pathExists : string → bool)
    (st : MemStorage) (id : option Z) : option (string * string) :=
  conv ← lookup_parsed id st;
  if bool_decide (status conv = "completed") then
    path ← filePath conv;
    if bool_decide (path ≠ "") && pathExists (downloadsPath path)
    then Some (downloadsPath path, or_string (fileName conv) "audio.mp3")
    else None
  else None.

(** An identifier that resolves to a completed job with an artifact
    location. *)
Definition resolves (st : MemStorage) (id : option Z) : bool :=
  match lookup_parsed id st with
  | Some conv =>
      bool_decide (status conv = "completed")
      && bool_decide (is_Some (filePath conv))
  | None => false
  end.

(** Collaborators to run the model on: YouTube watch URLs are valid,
    anything with a scheme is a URL, titles are already clean. *)
Definition sample : Collaborators :=
  {| validateURL := String.prefix "https://www.youtube.com/watch?v=";
     zod_url := String.prefix "http";
     downloadsPath := λ path, "downloads/" +:+ path;
     sanitize := λ title, title |}.


(** A store holding one freshly submitted job. *)
Definition sample_url : string := "https://www.youtube.com/watch?v=dQw4w9WgXcQ".

Definition sample_job : Conversion :=
  (createConversion {| ins_url := sample_url |} 1000 newMemStorage).1.

Definition sample_store : MemStorage :=
  (createConversion {| ins_url := sample_url |} 1000 newMemStorage).2.

(** A run in which the transcoder reports 50 percent; a later report of
    20 percent is the next thing to arrive. *)
Definition half_way : list action :=
  [Submit sample_url 1000;
   Advance 1 Resumed;
   Advance 1 (InfoResolved "Song" 2000);
   Advance 1 (ProgressReported (Some (Finite 50)))].

Definition half_way_state : system :=
  default boot (sys_run (H := sample) half_way boot).


(** A run that leaves job 1 completed and job 2 failed. *)
Definition one_done_one_failed : list action :=
  [Submit sample_url 1000;
   Submit sample_url 1001;
   Advance 1 Resumed;
   Advance 1 (InfoResolved "Song" 2000);
   Advance 1 TranscodeEnded;
   Advance 1 (StatResolved 4096 3000);
   Advance 2 Resumed;
   Advance 2 (Threw (ErrorObject "Video unavailable"))].

Definition done_and_failed_state : system :=
  default boot (sys_run (H := sample) one_done_one_failed boot).

Definition half_way_job : Conversion :=
  default sample_job (getConversion 1 (store half_way_state)).



Definition done_job : Conversion :=
  default sample_job (getConversion 1 (store done_and_failed_state)).

Definition deleted_state : system :=
  default boot (sys_step (H := sample) (Delete 1) done_and_failed_state).

(** The same run, after which the transcoder of job 1 reports 50
    percent once more: the listener is still registered. *)
Definition report_after_end : action :=
  Advance 1 (ProgressReported (Some (Finite 50))).

Definition overwritten_state : system :=
  default boot (sys_step (H := sample) report_after_end done_and_failed_state).

Definition overwritten_job : Conversion :=
  default sample_job (getConversion 1 (store overwritten_state)).

(** ** The iteration order of a JavaScript [Map]

    A [Map] iterates its entries in insertion order: [set] on a new key
    appends, [set] on a present key keeps the entry's place, [delete]
    removes the entry. *)
Module JsMap.
Section Ops.
Context {V : Type}.

Fixpoint set (k : Z) (v : V) (m : list (Z * V)) : list (Z * V) :=
  match m with
  | [] => [(k, v)]
  | (k', v') :: m' =>
      if decide (k' = k) then (k, v) :: m' else (k', v') :: set k v m'
  end.

Fixpoint get (k : Z) (m : list (Z * V)) : option V :=
  match m with
  | [] => None
  | (k', v') :: m' => if decide (k' = k) then Some v' else get k m'
  end.

Fixpoint delete (k : Z) (m : list (Z * V)) : list (Z * V) :=
  match m with
  | [] => []
  | (k', v') :: m' =>
      if decide (k' = k) then m' else (k', v') :: delete k m'
  end.

(** [Array.from(map.values())] *)
Definition values (m : list (Z * V)) : list V := m.*2.
End Ops.
End JsMap.

(** The entries of a map whose keys are handed out by a counter that
    starts at 1, listed by ascending key.  [entries_create],
    [entries_update] and [entries_delete] show that this is the order in
    which the JavaScript [Map] holds them. *)
Definition entries {V : Type} (m : gmap Z V) (next : Z) : list (Z * V) :=
  omap (λ k, (k,.) <$> m !! k) (seqZ 1 (next - 1)).

(** Every key came from the counter. *)
Definition keys_below {V : Type} (m : gmap Z V) (next : Z) : Prop :=
  1 ≤ next ∧ ∀ k, is_Some (m !! k) → 1 ≤ k < next.

(** ** The listings of the job store *)

(** The iteration of [this.conversions]. *)
Definition iteration (st : MemStorage) : list (Z * Conversion) :=
  entries (conversions st) (currentConversionId st).

(** [createdAt?.getTime() || 0] *)
Definition created_time (c : Conversion) : Z := default 0 (createdAt c).

(** [Array.prototype.sort] with the comparator
    [(a, b) => created_time b - created_time a].  The sort is stable, so
    its result is fixed by the comparator: [a] stays in front of every
    [b] it preceded unless [b] is strictly more recent.  It is written
    as an insertion sort. *)
Fixpoint sort_insert (a : Conversion) (sorted : list Conversion)
    : list Conversion :=
  match sorted with
  | [] => [a]
  | b :: rest =>
      if decide (created_time a < created_time b)
      then b :: sort_insert a rest
      else a :: b :: rest
  end.

Definition sort_newest_first (l : list Conversion) : list Conversion :=
  foldr sort_insert [] l.

Definition getAllConversions (st : MemStorage) : list Conversion :=
  sort_newest_first (JsMap.values (iteration st)).

Definition getConversionsByStatus (s : string) (st : MemStorage)
    : list Conversion :=
  filter (λ conversion, status conversion = s) (JsMap.values (iteration st)).

(** The order of the listing: most recent first. *)
Definition newer_or_same (a b : Conversion) : Prop :=
  created_time b ≤ created_time a.

(** The keys of [this.conversions] all came from [currentConversionId]. *)
Definition store_wf (st : MemStorage) : Prop :=
  keys_below (conversions st) (currentConversionId st).

(** A call of one of the store's mutating methods, and a sequence of
    calls on a store. *)
Inductive store_op :=
  | OpCreate (insertConversion : InsertConversion) (now : Z)
  | OpUpdate (id : Z) (updates : Updates)
  | OpDelete (id : Z).

Definition store_apply (st : MemStorage) (op : store_op) : MemStorage :=
  match op with
  | OpCreate insertConversion now => (createConversion insertConversion now st).2
  | OpUpdate id updates => (updateConversion id updates st).2
  | OpDelete id => (deleteConversion id st).2
  end.

Definition store_run (ops : list store_op) (st : MemStorage) : MemStorage :=
  foldl store_apply st ops.

(** ** The user half of [MemStorage]

    The methods on users read and write [this.users] and
    [this.currentUserId] only, so that half of the object is a store of
    its own. *)
Module Users.
(** A row of the [users] table, and [InsertUser]: the picked columns
    [username] and [password]. *)
Record User := mkUser {
  id : Z;
  username : string;
  password : string;
}.

Record InsertUser := mkInsert {
  ins_username : string;
  ins_password : string;
}.

Record Storage := mkStorage {
  users : gmap Z User;
  currentUserId : Z;
}.

(** The fields as the constructor leaves them. *)
Definition new : Storage := {| users := ∅; currentUserId := 1 |}.

Definition getUser (id : Z) (st : Storage) : option User := users st !! id.

(** [Array.from(this.users.values()).find(...)]: the first user, in the
    [Map]'s iteration order, with that name. *)
Definition getUserByUsername (name : string) (st : Storage) : option User :=
  List.find (λ user, bool_decide (username user = name))
            (JsMap.values (entries (users st) (currentUserId st))).

(** [{ ...insertUser, id }] *)
Definition createUser (insertUser : InsertUser) (st : Storage)
    : User * Storage :=
  let id := currentUserId st in
  let user :=
    {| username := ins_username insertUser;
       password := ins_password insertUser;
       id := id |} in
  (user, {| users := <[id := user]> (users st); currentUserId := id + 1 |}).

Definition wf (st : Storage) : Prop :=
  keys_below (users st) (currentUserId st).
End Users.

(** ** The reading routes *)

(** [GET /api/conversions] *)
Definition listRoute (st : MemStorage) : response :=
  JsonConversions (getAllConversions st).

(** [GET /api/conversions/:id] *)
Definition getRoute (parsed : option Z) (st : MemStorage) : response :=
  match lookup_parsed parsed st with
  | Some conversion => JsonConversion conversion
  | None => JsonMessage 404 "Conversion not found"
  end.

(** What [GET /api/download/:id] sends: [res.download(filePath, name)]
    or [res.status(code).json({ message })]. *)
Inductive download :=
  | Download (filePath name : string)
  | Refused (code : Z) (message : string).

Section Download.
Context `{!Collaborators}.

(** [GET /api/download/:id]; [pathExists] is the answer of
    [fs.pathExists]. *)
Definition downloadRoute (parsed : option Z) (pathExists : string → bool)
    (st : MemStorage) : download :=
  match lookup_parsed parsed st with
  | None => Refused 404 "File not found or conversion not completed"
  | Some conversion =>
      match filePath conversion with
      | Some path =>
          if bool_decide (status conversion ≠ "completed")
             || bool_decide (path = "")
          then Refused 404 "File not found or conversion not completed"
          else
            if pathExists (downloadsPath path)
            then Download (downloadsPath path)
                          (or_string (fileName conversion) "audio.mp3")
            else Refused 404 "File no longer exists"
      | None => Refused 404 "File not found or conversion not completed"
      end
  end.
End Download.

(** ** More of the process invariant *)

(** The two names [processConversion] derives: the file name shown to
    the user and the name of the file in the downloads directory. *)
Definition display_name (title : string) (conversionId : Z) : string :=
  title +:+ "_" +:+ pretty conversionId +:+ ".mp3".

Definition artifact_key (conversionId now : Z) : string :=
  pretty conversionId +:+ "_" +:+ pretty now +:+ ".mp3".

(** What else the record of job [conversionId] looks like while its
    pipeline is suspended in a stage: the columns no update names, the
    title, and the names the pipeline carries. *)
Definition described (conversionId : Z) (stg : stage) (c : Conversion)
    : Prop :=
  id c = conversionId ∧ is_Some (createdAt c)
  ∧ match stg with
    | Started conversion =>
        title c = None ∧ completedAt c = None
        ∧ ∀ c0, conversion = Some c0 → url c0 = url c
    | FetchingInfo u =>
        title c = None ∧ completedAt c = None ∧ u = url c
    | Transcoding fileName filePath | Measuring fileName filePath =>
        completedAt c = None
        ∧ ∃ t now, title c = Some t
            ∧ fileName = display_name t conversionId
            ∧ filePath = artifact_key conversionId now
    | Finished _ =>
        (status c = "completed" →
         ∃ t now, title c = Some t
           ∧ fileName c = Some (display_name t conversionId)
           ∧ filePath c = Some (artifact_key conversionId now))
        ∧ (status c = "failed" →
           completedAt c = None ∧ ∃ v, progress c = Some v ∧ 5 ≤ v ≤ 95)
    end.

Definition sys_inv_more (s : system) : Prop :=
  store_wf (store s)
  ∧ ∀ id c stg,
      getConversion id (store s) = Some c →
      pipelines s !! id = Some stg →
      described id stg c.

(** A string without the separator ["_"]. *)
Fixpoint no_underscore (s : string) : Prop :=
  match s with
  | EmptyString => True
  | String a s' => a ≠ "_"%char ∧ no_underscore s'
  end.



(** The record [createConversion] stores under identifier [k]. *)
Definition pending_record (k : Z) (reference : string) (now : Z)
    : Conversion :=
  {| id := k; url := reference; title := None; status := "pending";
     progress := Some 0; filePath := None; fileName := None;
     fileSize := None; errorMessage := None; createdAt := Some now;
     completedAt := None |}.


(** What a successful download would send, as an archive entry. *)
Definition served (d : download) : option (string * string) :=
  match d with
  | Download filePath name => Some (filePath, name)
  | Refused _ _ => None
  end.

(** ** The page ([ConverterPage]): the state updates of its handlers *)
Module Page.
(** [l.filter((_, i) => keep(i))] and [l.map((x, i) => f(x, i))], the
    index counting from [i]. *)
Fixpoint filter_index {A : Type} (keep : nat → bool) (i : nat) (l : list A)
    : list A :=
  match l with
  | [] => []
  | x :: l' =>
      if keep i then x :: filter_index keep (S i) l'
      else filter_index keep (S i) l'
  end.

Fixpoint map_index {A B : Type} (f : A → nat → B) (i : nat) (l : list A)
    : list B :=
  match l with
  | [] => []
  | x :: l' => f x i :: map_index f (S i) l'
  end.

(** [setUrls(prev => [...prev, ""])] *)
Definition addUrlField (prev : list string) : list string := prev ++ [""].

(** [setUrls(prev => prev.filter((_, i) => i !== index))] *)
Definition removeUrlField (index : nat) (prev : list string) : list string :=
  filter_index (λ i, negb (i =? index)%nat) 0 prev.

(** [setUrls(prev => prev.map((url, i) => i === index ? value : url))] *)
Definition updateUrl (index : nat) (value : string) (prev : list string)
    : list string :=
  map_index (λ url i, if (i =? index)%nat then value else url) 0 prev.

(** [setUrls([""])] *)
Definition clearAllUrls : list string := [""].

(** [toggleFileSelection]: a copy of the set with [id] deleted when it
    was there, added when it was not. *)
Definition toggleFileSelection (id : Z) (prev : gset Z) : gset Z :=
  if decide (id ∈ prev) then prev ∖ {[id]} else prev ∪ {[id]}.

(** What [startConversion] does: a toast, or a request to one of the two
    submission routes. *)
Inductive submission :=
  | NoUrls
  | PostSingle (url : string)
  | PostBulk (urls : list string).

(** [startConversion]; [blank url] says whether [url.trim()] is the
    empty string. *)
Definition startConversion (blank : string → bool) (urls : list string)
    : submission :=
  let validUrls := List.filter (λ url, negb (blank url)) urls in
  match validUrls with
  | [] => NoUrls
  | [url] => PostSingle url
  | _ => PostBulk validUrls
  end.
End Page.

(** Inputs to run the added properties on. *)
Definition second_insert : InsertConversion := {| ins_url := sample_url |}.

Definition ada : Users.InsertUser :=
  {| Users.ins_username := "ada"; Users.ins_password := "secret" |}.

Definition sample_users : Users.Storage := (Users.createUser ada Users.new).2.

Definition later_actions : list action := [Delete 2; Submit sample_url 5000].

Definition later_state : system :=
  default boot (sys_run (H := sample) later_actions done_and_failed_state).

Definition later_job : Conversion :=
  default sample_job (getConversion 1 (store later_state)).

Definition mixed_batch : list string :=
  [sample_url; sample_url; "https://example.com/video"; sample_url].

(** What the event loop runs at the [await]s of the bulk handler on
    that batch: nothing in the first iteration; in the second, the first
    resumption of the pipeline launched in the first. *)
Definition mixed_batch_awaits : list (list (Z * event)) :=
  [[]; [(1, Resumed)]].

(** * Properties of the job store *)

Lemma spread_field (f : field) (existing : Conversion) (updates : Updates) :
  field_value f (spread existing updates)
  = default (field_value f existing) (supplied f updates).
Proof.
  destruct f; cbn;
    match goal with |- context [default _ ?o] => by destruct o end.
Qed.

Lemma updateConversion_absent (id : Z) (updates : Updates) (st : MemStorage) :
  getConversion id st = None → updateConversion id updates st = (None, st).
Proof. unfold getConversion, updateConversion. by intros ->. Qed.

Lemma updateConversion_present (id : Z) (updates : Updates) (st : MemStorage)
    (existing : Conversion) :
  getConversion id st = Some existing →
  updateConversion id updates st
  = (Some (spread existing updates),
     {| conversions := <[id := spread existing updates]> (conversions st);
        currentConversionId := currentConversionId st |}).
Proof. unfold getConversion, updateConversion. by intros ->. Qed.

Lemma updateConversion_counter (id : Z) (updates : Updates) (st : MemStorage) :
  currentConversionId (updateConversion id updates st).2
  = currentConversionId st.
Proof. unfold updateConversion. by destruct (conversions st !! id). Qed.

(** What a lookup finds after an update: the merged record at the
    updated key, the old content elsewhere. *)
Lemma updateConversion_lookup (id id' : Z) (updates : Updates)
    (st : MemStorage) :
  getConversion id' (updateConversion id updates st).2
  = if decide (id = id')
    then (λ existing, spread existing updates) <$> getConversion id st
    else getConversion id' st.
Proof.
  unfold getConversion, updateConversion.
  destruct (conversions st !! id) as [existing|] eqn:E; cbn.
  - rewrite lookup_insert. by case_decide.
  - case_decide; [by subst|done].
Qed.

Lemma deleteConversion_lookup (id id' : Z) (st : MemStorage) :
  getConversion id' (deleteConversion id st).2
  = if decide (id = id') then None else getConversion id' st.
Proof. unfold getConversion, deleteConversion; cbn. apply lookup_delete. Qed.

Lemma deleteConversion_absent (id : Z) (st : MemStorage) :
  getConversion id st = None → deleteConversion id st = (false, st).
Proof.
  unfold getConversion, deleteConversion. intros E.
  destruct st as [m n]; cbn in *.
  rewrite delete_id by done. by rewrite E.
Qed.

(** C8: on an existing job, [updateConversion] stores and returns the
    existing record merged with the supplied fields: a field the partial
    record supplies takes the supplied value, every other field keeps the
    value it had; the other jobs and the identifier counter are
    untouched. *)
Theorem update_merges_supplied_fields (id : Z) (updates : Updates)
    (st : MemStorage) (existing : Conversion) :
  getConversion id st = Some existing →
  ∃ updated st',
    updateConversion id updates st = (Some updated, st')
    ∧ getConversion id st' = Some updated
    ∧ (∀ f, supplied f updates = None →
            field_value f updated = field_value f existing)
    ∧ (∀ f v, supplied f updates = Some v → field_value f updated = v)
    ∧ (∀ id', id' ≠ id → getConversion id' st' = getConversion id' st)
    ∧ currentConversionId st' = currentConversionId st.
Proof.
  intros E. eexists _, _.
  split; [by apply updateConversion_present|].
  split; [unfold getConversion; cbn; apply lookup_insert_eq|].
  split; [intros f Hf; by rewrite spread_field, Hf|].
  split; [intros f v Hf; by rewrite spread_field, Hf|].
  split; [|done].
  intros id' Hne. unfold getConversion; cbn. by apply lookup_insert_ne.
Qed.

Lemma update_merges_supplied_fields_witness :
  ∃ updated st',
    updateConversion 1 (updates_progress 42) sample_store = (Some updated, st')
    ∧ getConversion 1 st' = Some updated
    ∧ (∀ f, supplied f (updates_progress 42) = None →
            field_value f updated = field_value f sample_job)
    ∧ (∀ f v, supplied f (updates_progress 42) = Some v →
              field_value f updated = v)
    ∧ (∀ id', id' ≠ 1 → getConversion id' st' = getConversion id' sample_store)
    ∧ currentConversionId st' = currentConversionId sample_store.
Proof.
  apply (update_merges_supplied_fields 1 (updates_progress 42)
           sample_store sample_job).
  reflexivity.
Defined.

(** * The progress percentage *)

Lemma Qle_bool_inject (a b : Z) :
  Qle_bool (inject_Z a) (inject_Z b) = bool_decide (a ≤ b).
Proof.
  destruct (Qle_bool (inject_Z a) (inject_Z b)) eqn:E; symmetry.
  - apply bool_decide_eq_true. rewrite Zle_Qle. by apply Qle_bool_iff.
  - apply bool_decide_eq_false. rewrite Zle_Qle. intros Hle.
    apply Qle_bool_iff in Hle. congruence.
Qed.

(** Clamping an integer into the band, in JavaScript numbers. *)
Lemma clamp_inject (z : Z) :
  Math_min (Math_max (Finite (inject_Z z)) (Finite (inject_Z 15)))
           (Finite (inject_Z 95))
  = Finite (inject_Z (Z.min (Z.max z 15) 95)).
Proof.
  cbn [Math_max]. rewrite Qle_bool_inject.
  case_bool_decide; cbn [Math_min]; rewrite Qle_bool_inject;
    case_bool_decide; do 2 f_equal; lia.
Qed.

(** Rounding and clamping any number but [NaN] gives an integer between
    15 and 95. *)
Lemma clamp_integer (n : number) :
  n ≠ NaN →
  ∃ z : Z,
    Math_min (Math_max (Math_round n) (Finite 15)) (Finite 95)
    = Finite (inject_Z z)
    ∧ 15 ≤ z ≤ 95.
Proof.
  intros Hn. destruct n as [| | |q]; [done| | |].
  - exists 95. by split.
  - exists 15. by split.
  - exists (Z.min (Z.max (Qfloor (q + (1 # 2))) 15) 95).
    split; [apply clamp_inject|lia].
Qed.

Lemma or_zero_not_NaN (percent : option number) : or_zero percent ≠ NaN.
Proof.
  destruct percent as [[| | |q]|]; cbn; try done. by destruct (Qeq_bool q 0).
Qed.

(** The number the callback computes is exactly the integer
    [percentage percent], and lies in the band. *)
Lemma percentage_exact (percent : option number) :
  percentage_number percent = Finite (inject_Z (percentage percent))
  ∧ 15 ≤ percentage percent ≤ 95.
Proof.
  destruct (clamp_integer (or_zero percent) (or_zero_not_NaN percent))
    as (z & Hz & Hb).
  unfold percentage, percentage_number. rewrite Hz. cbn [integer_of].
  by rewrite Qfloor_Z.
Qed.

(** The integer the listener computes is the reported value rounded to
    the nearest integer and clamped into the band. *)
Lemma percentage_rounded_and_clamped (percent : option number) :
  rounded_and_clamped percent (percentage percent).
Proof.
  destruct percent as [[| | |q]|]; try reflexivity.
  cbn [rounded_and_clamped].
  assert (∀ x : Q, (x == q)%Q →
            percentage_number (Some (Finite q))
            = Math_min (Math_max (Math_round (Finite x)) (Finite 15))
                       (Finite 95) →
            ∃ r : Z,
              (inject_Z r - (1 # 2) <= q)%Q ∧ (q < inject_Z r + (1 # 2))%Q
              ∧ percentage (Some (Finite q)) = Z.min (Z.max r 15) 95)
    as Hround.
  { intros x Hx Hnum. exists (Qfloor (x + (1 # 2))).
    assert ((inject_Z (Qfloor (x + (1 # 2))) - (1 # 2) <= q)%Q
            ∧ (q < inject_Z (Qfloor (x + (1 # 2))) + (1 # 2))%Q)
      as [Hlo Hhi].
    { pose proof (Qfloor_le (x + (1 # 2))) as Hlo.
      pose proof (Qlt_floor (x + (1 # 2))) as Hhi.
      rewrite inject_Z_plus in Hhi. change (inject_Z 1) with 1%Q in Hhi.
      generalize dependent (inject_Z (Qfloor (x + (1 # 2)))).
      intros r Hlo Hhi. split; lra. }
    split_and!; [done|done|].
    unfold percentage. rewrite Hnum. cbn [Math_round].
    change (Finite 15) with (Finite (inject_Z 15)).
    change (Finite 95) with (Finite (inject_Z 95)).
    rewrite clamp_inject. cbn [integer_of]. by rewrite Qfloor_Z. }
  unfold percentage_number, or_zero.
  destruct (Qeq_bool q 0) eqn:Hq.
  - apply (Hround 0%Q); [|by unfold percentage_number, or_zero; rewrite Hq].
    symmetry. by apply Qeq_bool_iff.
  - apply (Hround q); [reflexivity|].
    by unfold percentage_number, or_zero; rewrite Hq.
Qed.

Section PipelineFacts.
Context `{!Collaborators}.

(** C7: whatever the progress listener receives ([undefined], [NaN],
    an infinity or any finite value), the progress it persists is the
    reported value rounded to the nearest integer and clamped below at
    15 and above at 95 (a report without a usable value counting as 0),
    hence an integer between 15 and 95 inclusive; that integer is what
    it passes to [updateConversion], in every stage in which the
    listener is registered, and what the job's record then holds. *)
Theorem progress_write_clamped (conversionId : Z) (percent : option number)
    (st : MemStorage) :
  ∃ z : Z,
    rounded_and_clamped percent z
    ∧ 15 ≤ z ≤ 95
    ∧ percentage_number percent = Finite (inject_Z z)
    ∧ (∀ stg, listening stg = true →
         pipeline_step conversionId stg (ProgressReported percent) st
         = Some (stg,
                 (updateConversion conversionId (updates_progress z) st).2))
    ∧ (∀ c, getConversion conversionId st = Some c →
         getConversion conversionId
           (updateConversion conversionId (updates_progress z) st).2
         = Some (spread c (updates_progress z))
         ∧ progress (spread c (updates_progress z)) = Some z).
Proof.
  exists (percentage percent).
  destruct (percentage_exact percent) as [Hex Hb].
  split; [apply percentage_rounded_and_clamped|].
  split; [done|]. split; [done|]. split.
  - intros stg Hstg. destruct stg as [[conv|]| | | |[|]]; cbn in Hstg |- *;
      done.
  - intros c Hc. rewrite updateConversion_lookup, decide_True, Hc by done.
    done.
Qed.

(** C10: started on an identifier the store does not hold, the
    pipeline returns at its first resumption without a store write;
    whatever events follow, the store is the one it was started on. *)
Theorem processConversion_absent (conversionId : Z) (st : MemStorage) :
  getConversion conversionId st = None →
  pipeline_step conversionId (processConversion conversionId st) Resumed st
  = Some (Finished false, st)
  ∧ ∀ evs,
      (pipeline_run conversionId (processConversion conversionId st) evs st).2
      = st.
Proof.
  intros E. unfold processConversion. rewrite E. split; [done|].
  intros [|ev evs]; [done|].
  destruct ev; cbn; try done. by destruct evs as [|[] evs].
Qed.
End PipelineFacts.

Lemma processConversion_absent_witness :
  pipeline_step (H := sample) 7 (processConversion 7 sample_store) Resumed
    sample_store
  = Some (Finished false, sample_store)
  ∧ ∀ evs,
      (pipeline_run (H := sample) 7 (processConversion 7 sample_store) evs
         sample_store).2
      = sample_store.
Proof.
  apply (processConversion_absent (H := sample) 7 sample_store).
  reflexivity.
Defined.

Example percentage_rounds_half_up :
  percentage (Some (Finite (75 # 2))) = 38
  ∧ percentage (Some (Finite (149 # 4))) = 37
  ∧ percentage None = 15
  ∧ percentage (Some NaN) = 15
  ∧ percentage (Some Infinity) = 95
  ∧ percentage (Some (Finite (-(5 # 2)))) = 15.
Proof. by vm_compute. Qed.

(** * Properties of the process *)

Section SystemFacts.
Context `{!Collaborators}.

Lemma launch_eq (url : string) (now : Z) (s : system) :
  let n := currentConversionId (store s) in
  let conv := (createConversion {| ins_url := url |} now (store s)).1 in
  launch url now s
  = (conv,
     {| store := {| conversions := <[n := conv]> (conversions (store s));
                    currentConversionId := n + 1 |};
        pipelines := <[n := Started (Some conv)]> (pipelines s) |}).
Proof.
  unfold launch, processConversion, getConversion; cbn.
  by rewrite lookup_insert_eq.
Qed.

Lemma deleteRoute_store (id : Z) (st : MemStorage) :
  (deleteRoute (Some id) st).2 = (deleteConversion id st).2.
Proof.
  unfold deleteRoute. cbn.
  by destruct (bool_decide (is_Some (conversions st !! id))).
Qed.

(** The store write of one entry: at most one [updateConversion]
    for the pipeline's own identifier. *)
Lemma pipeline_step_write (id : Z) (stg stg' : stage) (ev : event)
    (st st' : MemStorage) :
  pipeline_step id stg ev st = Some (stg', st') →
  st' = st ∨ ∃ updates, st' = (updateConversion id updates st).2.
Proof.
  intros Hstep.
  destruct stg as [[conv|]| | | |[|]], ev; cbn in Hstep;
    unfold pipeline_catch, progress_listener in Hstep; simplify_eq; eauto.
Qed.

Lemma pipeline_step_counter (id : Z) (stg stg' : stage) (ev : event)
    (st st' : MemStorage) :
  pipeline_step id stg ev st = Some (stg', st') →
  currentConversionId st' = currentConversionId st.
Proof.
  intros [->|[updates ->]]%pipeline_step_write; [done|].
  apply updateConversion_counter.
Qed.

(** An entry touches no job but the pipeline's own, and creates none. *)
Lemma pipeline_step_other (id id' : Z) (stg stg' : stage) (ev : event)
    (st st' : MemStorage) :
  pipeline_step id stg ev st = Some (stg', st') →
  id ≠ id' → getConversion id' st' = getConversion id' st.
Proof.
  intros [->|[updates ->]]%pipeline_step_write Hne; [done|].
  rewrite updateConversion_lookup. by rewrite decide_False.
Qed.

Lemma pipeline_step_absent (id : Z) (stg stg' : stage) (ev : event)
    (st st' : MemStorage) :
  pipeline_step id stg ev st = Some (stg', st') →
  getConversion id st = None → st' = st.
Proof.
  intros [->|[updates ->]]%pipeline_step_write E; [done|].
  by rewrite updateConversion_absent.
Qed.

(** What an entry does to the pipeline's own job: the record it leaves
    is the one the new stage describes, the status moved by at most one
    transition, and the progress did not decrease unless a progress
    report lowered it; while the job is [processing] such a report
    lowers it inside the band. *)
Lemma pipeline_step_own (id : Z) (stg stg' : stage) (ev : event)
    (st st' : MemStorage) (c : Conversion) :
  pipeline_step id stg ev st = Some (stg', st') →
  getConversion id st = Some c →
  consistent stg c →
  ∃ c', getConversion id st' = Some c'
    ∧ consistent stg' c'
    ∧ forward (status c) (status c')
    ∧ ∀ v v', progress c = Some v → progress c' = Some v' →
        v ≤ v'
        ∨ ∃ percent, ev = ProgressReported percent
            ∧ v' = percentage percent ∧ 15 ≤ v' ∧ v' < v
            ∧ (status c = "processing" → v ≤ 95).
Proof.
  intros Hstep Hc Hcons.
  destruct ev as [|videoTitle now|percent| |size now|error].
  - (* the first resumption: a pending job enters processing *)
    destruct stg as [[conv|]| | | |[|]]; cbn in Hstep; simplify_eq;
      [|by cbn in Hcons].
    rewrite updateConversion_lookup, decide_True, Hc by done.
    eexists; split; [done|]. unfold consistent, artifact_free in *; cbn.
    destruct Hcons as (Hs & Hp & (? & ? & ?) & ?). rewrite Hs.
    split_and!; try done; [constructor|].
    intros v v' ? ?; simplify_eq. left; lia.
  - (* the title write *)
    destruct stg as [[conv|]| | | |[|]]; cbn in Hstep; simplify_eq.
    rewrite updateConversion_lookup, decide_True, Hc by done.
    eexists; split; [done|]. unfold consistent, artifact_free in *; cbn.
    destruct Hcons as (Hs & Hp & (? & ? & ?) & ?).
    split_and!; try done; [exists 15; split; [done|lia]|constructor|].
    intros v v' ? ?; simplify_eq. left; lia.
  - (* a progress report, in any stage with the listener *)
    destruct (percentage_exact percent) as [_ Hband].
    assert (listening stg = true ∧ stg' = stg
            ∧ st' = progress_listener id percent st) as (Hl & -> & ->).
    { cbn in Hstep. destruct stg as [[conv|]| | | |[|]]; cbn in Hstep;
        by simplify_eq. }
    unfold progress_listener.
    rewrite updateConversion_lookup, decide_True, Hc by done.
    eexists; split; [done|]. cbn [fmap option_fmap option_map].
    assert (∀ v v' : Z,
              progress c = Some v →
              progress (spread c (updates_progress (percentage percent)))
              = Some v' →
              (status c = "processing" → v ≤ 95) →
              v ≤ v'
              ∨ ∃ percent0, ProgressReported percent = ProgressReported percent0
                  ∧ v' = percentage percent0 ∧ 15 ≤ v' ∧ v' < v
                  ∧ (status c = "processing" → v ≤ 95)) as Hlow.
    { intros v v' Hv [= <-] Hup.
      destruct (decide (v ≤ percentage percent)); [by left|right].
      exists percent. split_and!; try done; lia. }
    destruct stg as [[conv|]| | | |[|]]; try done;
      unfold consistent, artifact_free in *; cbn.
    + destruct Hcons as (Hs & (v0 & Hp & Hb) & (? & ? & ?) & ?).
      split_and!; try done; [by eexists|constructor|].
      intros v v' Hv Hv'. apply Hlow; try done. intros _.
      assert (v = v0) by congruence. lia.
    + destruct Hcons as (Hs & (v0 & Hp & Hb) & (? & ? & ?) & ?).
      split_and!; try done; [by eexists|constructor|].
      intros v v' Hv Hv'. apply Hlow; try done. intros _.
      assert (v = v0) by congruence. lia.
    + destruct Hcons as [(_ & Hs & (v0 & Hp & Hb) & ? & ? & ? & ? & ?)
                        |(Hs & ? & ? & ? & ?)].
      * split_and!; [left; split_and!; eauto|constructor|].
        intros v v' Hv Hv'. apply Hlow; try done. by rewrite Hs.
      * split_and!; [right; split_and!; eauto|constructor|].
        intros v v' Hv Hv'. apply Hlow; try done. by rewrite Hs.
  - (* transcoding ended: no write *)
    destruct stg as [[conv|]| | | |[|]]; cbn in Hstep; simplify_eq.
    eexists; split; [done|]. unfold consistent, artifact_free in *; cbn.
    destruct Hcons as (Hs & (v0 & Hp & Hb) & (? & ? & ?) & ?).
    split_and!; try done; [by eexists|constructor|].
    intros v v' ? ?; simplify_eq. left; lia.
  - (* the completion write *)
    destruct stg as [[conv|]| | | |[|]]; cbn in Hstep; simplify_eq.
    rewrite updateConversion_lookup, decide_True, Hc by done.
    eexists; split; [done|]. unfold consistent, artifact_free in *; cbn.
    destruct Hcons as (Hs & (v0 & Hp & Hb) & (? & ? & ?) & ?). rewrite Hs.
    split_and!; [left; split_and!; eauto|constructor|].
    intros v v' ? ?; simplify_eq. left; lia.
  - (* the catch block *)
    assert (st' = pipeline_catch id error st
            ∧ status c = "processing" ∧ artifact_free c
            ∧ ∃ transcoder, stg' = Finished transcoder) as (-> & Hs & Hfree & l & ->).
    { destruct stg as [[conv|]| | | |[|]]; cbn in Hstep; simplify_eq;
        unfold consistent in Hcons;
        destruct Hcons as (Hs & _ & Hfree & _); eauto. }
    unfold pipeline_catch.
    rewrite updateConversion_lookup, decide_True, Hc by done.
    eexists; split; [done|]. unfold consistent, artifact_free in *; cbn.
    destruct Hfree as (? & ? & ?). rewrite Hs.
    split_and!; [right; split_and!; eauto|constructor|].
    intros v v' ? ?; simplify_eq. left; lia.
Qed.

(** ** The invariant *)

Lemma sys_inv_boot : sys_inv boot.
Proof. split; intros id' x Hx; by rewrite ?lookup_empty in Hx. Qed.

Lemma sys_step_inv (a : action) (s s' : system) :
  sys_inv s → sys_step a s = Some s' → sys_inv s'.
Proof.
  intros [Hjobs Hpipes] Hstep.
  destruct a as [url now|id|id ev]; cbn [sys_step] in Hstep.
  - destruct (validateURL url); [|done]. rewrite launch_eq in Hstep.
    simplify_eq/=. split; cbn.
    + intros id' c. unfold getConversion; cbn. rewrite lookup_insert.
      case_decide as Hid.
      * intros [= <-]. subst id'. split; [lia|].
        eexists. rewrite lookup_insert_eq. split; [done|]. by cbn.
      * intros Hc. destruct (Hjobs id' c Hc) as (Hlt & stg & Hstg & Hcons).
        split; [lia|]. exists stg. by rewrite lookup_insert_ne.
    + intros id' stg. rewrite lookup_insert. case_decide as Hid.
      * intros _. lia.
      * intros Hstg%Hpipes. lia.
  - simplify_eq. split; cbn [store pipelines]; rewrite deleteRoute_store.
    + intros id' c. rewrite deleteConversion_lookup.
      case_decide; [done|]. apply Hjobs.
    + apply Hpipes.
  - destruct (pipelines s !! id) as [stg|] eqn:Hstg; [|done]. cbn in Hstep.
    destruct (pipeline_step id stg ev (store s)) as [[stg' st']|] eqn:Hpipe;
      [|done].
    simplify_eq/=. pose proof (pipeline_step_counter _ _ _ _ _ _ Hpipe) as Hn.
    split; cbn; rewrite Hn.
    + intros id' c' Hc'. destruct (decide (id = id')) as [<-|Hne].
      * destruct (getConversion id (store s)) as [c|] eqn:Hc.
        -- destruct (Hjobs id c Hc) as (Hlt & stg0 & Hstg0 & Hcons).
           assert (stg0 = stg) as -> by congruence.
           destruct (pipeline_step_own _ _ _ _ _ _ _ Hpipe Hc Hcons)
             as (c'' & Hc'' & Hcons' & _).
           assert (c'' = c') as -> by congruence.
           split; [done|]. exists stg'. by rewrite lookup_insert_eq.
        -- rewrite (pipeline_step_absent _ _ _ _ _ _ Hpipe Hc) in Hc'.
           congruence.
      * rewrite (pipeline_step_other _ _ _ _ _ _ _ Hpipe Hne) in Hc'.
        destruct (Hjobs id' c' Hc') as (Hlt & stg0 & Hstg0 & Hcons).
        split; [done|]. exists stg0. by rewrite lookup_insert_ne.
    + intros id' stg0. rewrite lookup_insert. case_decide as Hid.
      * intros _. subst id'. by eapply Hpipes.
      * apply Hpipes.
Qed.

Lemma reachable_inv (s : system) : reachable s → sys_inv s.
Proof.
  induction 1 as [|s a s' _ IH Hstep]; [apply sys_inv_boot|].
  by eapply sys_step_inv.
Qed.

Lemma reachable_run (acts : list action) (s s' : system) :
  reachable s → sys_run acts s = Some s' → reachable s'.
Proof.
  revert s. induction acts as [|a acts IH]; intros s Hs Hrun; cbn in Hrun.
  - by simplify_eq.
  - destruct (sys_step a s) as [s1|] eqn:Hstep; [|done]. cbn in Hrun.
    eapply IH; [|done]. by eapply reachable_step.
Qed.

(** ** Identifiers are never reused *)

Lemma sys_step_counter (a : action) (s s' : system) :
  sys_step a s = Some s' →
  currentConversionId (store s) ≤ currentConversionId (store s').
Proof.
  intros Hstep. destruct a as [url now|id|id ev]; cbn [sys_step] in Hstep.
  - destruct (validateURL url); [|done]. rewrite launch_eq in Hstep.
    simplify_eq/=. lia.
  - simplify_eq. cbn [store]. by rewrite deleteRoute_store.
  - destruct (pipelines s !! id) as [stg|]; [|done]. cbn in Hstep.
    destruct (pipeline_step id stg ev (store s)) as [[stg' st']|] eqn:Hpipe;
      [|done].
    simplify_eq/=. by rewrite (pipeline_step_counter _ _ _ _ _ _ Hpipe).
Qed.

(** An identifier below the counter that the store does not hold is
    not brought back by any action. *)
Lemma sys_step_absent (a : action) (s s' : system) (id : Z) :
  sys_step a s = Some s' →
  id < currentConversionId (store s) →
  getConversion id (store s) = None →
  getConversion id (store s') = None.
Proof.
  intros Hstep Hlt Hnone.
  destruct a as [url now|id0|id0 ev]; cbn [sys_step] in Hstep.
  - destruct (validateURL url); [|done]. rewrite launch_eq in Hstep.
    simplify_eq/=. unfold getConversion; cbn.
    rewrite lookup_insert_ne by lia. done.
  - simplify_eq. cbn [store].
    rewrite deleteRoute_store, deleteConversion_lookup.
    by case_decide.
  - destruct (pipelines s !! id0) as [stg|]; [|done]. cbn in Hstep.
    destruct (pipeline_step id0 stg ev (store s)) as [[stg' st']|] eqn:Hpipe;
      [|done].
    simplify_eq/=. destruct (decide (id0 = id)) as [->|Hne].
    + by rewrite (pipeline_step_absent _ _ _ _ _ _ Hpipe Hnone).
    + by rewrite (pipeline_step_other _ _ _ _ _ _ _ Hpipe Hne).
Qed.

Lemma sys_run_absent (acts : list action) (s s' : system) (id : Z) :
  sys_run acts s = Some s' →
  id < currentConversionId (store s) →
  getConversion id (store s) = None →
  getConversion id (store s') = None.
Proof.
  revert s. induction acts as [|a acts IH]; intros s Hrun Hlt Hnone;
    cbn in Hrun.
  - by simplify_eq.
  - destruct (sys_step a s) as [s1|] eqn:Hstep; [|done]. cbn in Hrun.
    apply (IH s1); [done| |by eapply sys_step_absent].
    pose proof (sys_step_counter _ _ _ Hstep). lia.
Qed.

(** ** One action, seen from one job *)

Lemma sys_step_job (a : action) (s s' : system) (id : Z) (c c' : Conversion) :
  sys_inv s →
  sys_step a s = Some s' →
  getConversion id (store s) = Some c →
  getConversion id (store s') = Some c' →
  forward (status c) (status c')
  ∧ ∀ v v', progress c = Some v → progress c' = Some v' →
      v ≤ v'
      ∨ ∃ percent, a = Advance id (ProgressReported percent)
          ∧ v' = percentage percent ∧ 15 ≤ v' ∧ v' < v
          ∧ (status c = "processing" → v ≤ 95).
Proof.
  intros [Hjobs Hpipes] Hstep Hc Hc'.
  assert (c' = c →
          forward (status c) (status c')
          ∧ ∀ v v', progress c = Some v → progress c' = Some v' →
              v ≤ v'
              ∨ ∃ percent, a = Advance id (ProgressReported percent)
                  ∧ v' = percentage percent ∧ 15 ≤ v' ∧ v' < v
          ∧ (status c = "processing" → v ≤ 95))
    as Hsame.
  { intros ->. split; [constructor|]. intros v v' ? ?. left.
    assert (v = v') by congruence. lia. }
  destruct (Hjobs id c Hc) as (Hlt & stg & Hstg & Hcons).
  destruct a as [url now|id0|id0 ev]; cbn [sys_step] in Hstep.
  - destruct (validateURL url); [|done]. rewrite launch_eq in Hstep.
    simplify_eq/=. apply Hsame. unfold getConversion in Hc'; cbn in Hc'.
    rewrite lookup_insert_ne in Hc' by lia. unfold getConversion in Hc.
    congruence.
  - simplify_eq. cbn [store] in Hc'.
    rewrite deleteRoute_store, deleteConversion_lookup in Hc'.
    case_decide; [done|]. apply Hsame. congruence.
  - destruct (pipelines s !! id0) as [stg0|] eqn:Hstg0; [|done].
    cbn in Hstep.
    destruct (pipeline_step id0 stg0 ev (store s)) as [[stg' st']|] eqn:Hpipe;
      [|done].
    simplify_eq/=. destruct (decide (id0 = id)) as [->|Hne].
    + assert (stg0 = stg) as -> by congruence.
      destruct (pipeline_step_own _ _ _ _ _ _ _ Hpipe Hc Hcons)
        as (c'' & Hc'' & _ & Hfwd & Hprog).
      assert (c'' = c') as -> by congruence.
      split; [done|]. intros v v' Hv Hv'.
      destruct (Hprog v v' Hv Hv') as [Hle|(percent & -> & Hrest)];
        [by left|right].
      by exists percent.
    + apply Hsame.
      rewrite (pipeline_step_other _ _ _ _ _ _ _ Hpipe Hne) in Hc'.
      congruence.
Qed.

(** ** The routes stay inside the transition system *)

Lemma launch_reachable (url : string) (now : Z) (s : system) :
  validateURL url = true → reachable s → reachable (launch url now s).2.
Proof.
  intros Hurl Hs. apply (reachable_step s (Submit url now)); [done|].
  cbn [sys_step]. by rewrite Hurl.
Qed.

(** *** What runs during an [await] *)


Lemma during_await_cons (entry : Z * event) (entries : list (Z * event))
    (s : system) :
  during_await (entry :: entries) s = during_await entries (resume entry s).
Proof. done. Qed.



Lemma during_await_idle (entries : list (Z * event)) (s : system) :
  pipelines s = ∅ → during_await entries s = s.
Proof.
  intros Hp. induction entries as [|entry entries IH]; [done|].
  rewrite during_await_cons. unfold resume at 1.
  by rewrite Hp, lookup_empty.
Qed.

Lemma during_await_counter (entries : list (Z * event)) (s : system) :
  currentConversionId (store (during_await entries s))
  = currentConversionId (store s).
Proof.
  revert s. induction entries as [|[k ev] entries IH]; intros s; [done|].
  rewrite during_await_cons, IH. unfold resume; cbn [fst snd].
  destruct (pipelines s !! k) as [stg|]; [|done].
  destruct (pipeline_step k stg ev (store s)) as [[stg' st']|] eqn:Hpipe;
    [|done].
  by eapply pipeline_step_counter.
Qed.

(** The store with the record [createConversion] has just stored under
    the next identifier [n]. *)
Lemma updateConversion_created (k n : Z) (updates : Updates) (c : Conversion)
    (st : MemStorage) :
  k ≠ n →
  (updateConversion k updates
     {| conversions := <[n := c]> (conversions st);
        currentConversionId := currentConversionId st + 1 |}).2
  = {| conversions := <[n := c]> (conversions (updateConversion k updates st).2);
       currentConversionId :=
         currentConversionId (updateConversion k updates st).2 + 1 |}.
Proof.
  intros Hne. unfold updateConversion; cbn.
  rewrite lookup_insert_ne by done.
  destruct (conversions st !! k) as [existing|]; cbn; [|done].
  f_equal. by apply insert_insert_ne.
Qed.

(** A pipeline entry does not see a record stored under another
    identifier. *)
Lemma pipeline_step_created (k n : Z) (stg : stage) (ev : event)
    (c : Conversion) (st : MemStorage) :
  k ≠ n →
  pipeline_step k stg ev
    {| conversions := <[n := c]> (conversions st);
       currentConversionId := currentConversionId st + 1 |}
  = (λ r : stage * MemStorage,
       (r.1, {| conversions := <[n := c]> (conversions r.2);
                currentConversionId := currentConversionId r.2 + 1 |}))
    <$> pipeline_step k stg ev st.
Proof.
  intros Hne.
  destruct stg as [[conv|]| | | |[|]], ev; cbn; try done;
    unfold pipeline_catch, progress_listener;
    by rewrite updateConversion_created.
Qed.

(** The state of the bulk handler suspended at its [await]: the record
    is stored, the pipeline is not launched. *)
Lemma during_await_created (entries : list (Z * event)) (n : Z)
    (c : Conversion) (s : system) :
  pipelines s !! n = None →
  during_await entries
    {| store := {| conversions := <[n := c]> (conversions (store s));
                   currentConversionId := currentConversionId (store s) + 1 |};
       pipelines := pipelines s |}
  = {| store :=
         {| conversions :=
              <[n := c]> (conversions (store (during_await entries s)));
            currentConversionId :=
              currentConversionId (store (during_await entries s)) + 1 |};
       pipelines := pipelines (during_await entries s) |}
  ∧ pipelines (during_await entries s) !! n = None.
Proof.
  revert s. induction entries as [|[k ev] entries IH]; intros s Hn; [done|].
  rewrite !during_await_cons.
  assert (resume (k, ev)
            {| store :=
                 {| conversions := <[n := c]> (conversions (store s));
                    currentConversionId := currentConversionId (store s) + 1 |};
               pipelines := pipelines s |}
          = {| store :=
                 {| conversions :=
                      <[n := c]> (conversions (store (resume (k, ev) s)));
                    currentConversionId :=
                      currentConversionId (store (resume (k, ev) s)) + 1 |};
               pipelines := pipelines (resume (k, ev) s) |}
          ∧ pipelines (resume (k, ev) s) !! n = None) as [-> Hn'].
  { unfold resume; cbn [fst snd store pipelines].
    destruct (pipelines s !! k) as [stg|] eqn:Hstg; [|done].
    assert (k ≠ n) as Hne by congruence.
    rewrite pipeline_step_created by done.
    destruct (pipeline_step k stg ev (store s)) as [[stg' st']|]; cbn; [|done].
    by rewrite lookup_insert_ne. }
  by apply IH.
Qed.

(** One iteration of the bulk loop on a valid reference, with whatever
    runs during its [await], is those entries followed by a submission
    of the single route. *)
Lemma bulk_loop_cons (url : string) (rest : list string) (now : Z)
    (awaits : list (list (Z * event))) (created : list Conversion)
    (s : system) :
  sys_inv s →
  validateURL url = true →
  bulk_loop (url :: rest) now awaits created s
  = bulk_loop rest now (tl awaits)
      (created ++ [(launch url now (during_await (hd [] awaits) s)).1])
      (launch url now (during_await (hd [] awaits) s)).2.
Proof.
  intros [_ Hpipes] Hurl. cbn [bulk_loop]. rewrite Hurl.
  assert (pipelines s !! currentConversionId (store s) = None) as Hn.
  { destruct (pipelines s !! currentConversionId (store s)) as [stg|] eqn:E;
      [|done].
    apply Hpipes in E. lia. }
  unfold createConversion. cbn [ins_url].
  destruct (during_await_created (hd [] awaits) (currentConversionId (store s))
              {| id := currentConversionId (store s); url := url;
                 title := None; status := "pending"; progress := Some 0;
                 filePath := None; fileName := None; fileSize := None;
                 errorMessage := None; createdAt := Some now;
                 completedAt := None |} s Hn) as [-> _].
  assert (currentConversionId (store (during_await (hd [] awaits) s))
          = currentConversionId (store s)) as Hcount.
  { apply during_await_counter. }
  rewrite launch_eq. cbn [fst snd store pipelines id].
  unfold createConversion, processConversion, getConversion.
  cbn [ins_url fst conversions]. rewrite lookup_insert_eq, Hcount. done.
Qed.



Lemma postConversion_reachable (url : string) (now : Z) (s : system) :
  reachable s → reachable (postConversion url now s).2.
Proof.
  intros Hs. unfold postConversion.
  destruct (validateURL url) eqn:Hurl; [|done].
  pose proof (launch_reachable url now s Hurl Hs) as Hs'.
  by destruct (launch url now s).
Qed.

(** ** The job state machine *)

Lemma forward_from_terminal (s s' : string) :
  terminal s → forward s s' → s' = s.
Proof. intros [->| ->] Hfwd; by inversion Hfwd. Qed.

Lemma sys_run_terminal (acts : list action) (s s' : system) (id : Z)
    (c c' : Conversion) :
  sys_inv s →
  sys_run acts s = Some s' →
  getConversion id (store s) = Some c →
  terminal (status c) →
  getConversion id (store s') = Some c' →
  status c' = status c.
Proof.
  revert s c. induction acts as [|a acts IH]; intros s c Hinv Hrun Hc Hterm Hc';
    cbn in Hrun.
  - simplify_eq. congruence.
  - destruct (sys_step a s) as [s1|] eqn:Hstep; [|done]. cbn in Hrun.
    destruct (getConversion id (store s1)) as [c1|] eqn:Hc1.
    + destruct (sys_step_job _ _ _ _ _ _ Hinv Hstep Hc Hc1) as [Hfwd _].
      apply (forward_from_terminal _ _ Hterm) in Hfwd.
      rewrite <- Hfwd. eapply (IH s1 c1); try done.
      * by eapply sys_step_inv.
      * by rewrite Hfwd.
    + destruct Hinv as [Hjobs _]. destruct (Hjobs id c Hc) as [Hlt _].
      pose proof (sys_step_counter _ _ _ Hstep).
      rewrite (sys_run_absent acts s1 s' id) in Hc'; [done|done|lia|done].
Qed.

(** C2: in every reachable state of the process, a job a submission
    creates is stored with status [pending]; any one action moves the
    status of a stored job by at most one transition of
    pending → processing → {completed, failed}; and once the status is
    [completed] or [failed], no sequence of later actions changes it. *)
Theorem status_moves_forward (s : system) :
  reachable s →
  (∀ url now,
     status (launch url now s).1 = "pending"
     ∧ getConversion (id (launch url now s).1) (store (launch url now s).2)
       = Some (launch url now s).1)
  ∧ (∀ a s' id c c',
       sys_step a s = Some s' →
       getConversion id (store s) = Some c →
       getConversion id (store s') = Some c' →
       forward (status c) (status c'))
  ∧ (∀ acts s' id c c',
       sys_run acts s = Some s' →
       getConversion id (store s) = Some c →
       terminal (status c) →
       getConversion id (store s') = Some c' →
       status c' = status c).
Proof.
  intros Hinv%reachable_inv. split_and!.
  - intros url now. rewrite launch_eq. cbn. split; [done|].
    unfold getConversion; cbn. by rewrite lookup_insert_eq.
  - intros a s' id c c' Hstep Hc Hc'.
    by destruct (sys_step_job _ _ _ _ _ _ Hinv Hstep Hc Hc').
  - intros acts s' id c c'. by apply sys_run_terminal.
Qed.





(** C5: [updateConversion] on an identifier the store does not hold
    returns [undefined] and leaves the store as it is.  When a stored
    job of a reachable state is deleted, [deleteConversion] returns
    [true], [getConversion] then finds nothing, and after any further
    actions (the resumptions of the job's own pipeline among them) the
    identifier is still absent, so every [updateConversion] on it
    returns [undefined] and changes nothing. *)
Theorem update_absent_is_noop :
  (∀ id updates st,
     getConversion id st = None →
     updateConversion id updates st = (None, st))
  ∧ (∀ s id c s1,
       reachable s →
       getConversion id (store s) = Some c →
       sys_step (Delete id) s = Some s1 →
       (deleteConversion id (store s)).1 = true
       ∧ getConversion id (store s1) = None
       ∧ ∀ acts s2,
           sys_run acts s1 = Some s2 →
           getConversion id (store s2) = None
           ∧ ∀ updates,
               updateConversion id updates (store s2) = (None, store s2)).
Proof.
  split; [apply updateConversion_absent|].
  intros s id c s1 Hs Hc Hdel.
  assert (getConversion id (store s1) = None) as Hgone.
  { cbn [sys_step] in Hdel. simplify_eq. cbn [store].
    rewrite deleteRoute_store, deleteConversion_lookup.
    by rewrite decide_True. }
  split_and!; [|done|].
  - unfold deleteConversion, getConversion in *; cbn. rewrite Hc.
    by apply bool_decide_eq_true.
  - intros acts s2 Hrun.
    destruct (reachable_inv s Hs) as [Hjobs _].
    destruct (Hjobs id c Hc) as [Hlt _].
    pose proof (sys_step_counter _ _ _ Hdel).
    assert (getConversion id (store s2) = None) as Hnone.
    { apply (sys_run_absent acts s1 s2 id); [done|lia|done]. }
    split; [done|]. intros updates. by apply updateConversion_absent.
Qed.

(** C9: deleting a stored job returns [true] and removes it; deleting
    the same identifier again returns [false] and leaves the store as
    it is.  The route answers the first request with 200 and the second
    with 404 "Conversion not found", handing nothing to [fs.remove]. *)
Theorem delete_is_idempotent (id : Z) (st : MemStorage) (c : Conversion) :
  getConversion id st = Some c →
  ∃ st1,
    deleteConversion id st = (true, st1)
    ∧ getConversion id st1 = None
    ∧ deleteConversion id st1 = (false, st1)
    ∧ (deleteRoute (Some id) st).1.1
      = JsonMessage 200 "Conversion deleted successfully"
    ∧ (deleteRoute (Some id) st).2 = st1
    ∧ deleteRoute (Some id) st1
      = (JsonMessage 404 "Conversion not found", None, st1).
Proof.
  intros Hc. exists (deleteConversion id st).2.
  assert (getConversion id (deleteConversion id st).2 = None) as Hgone.
  { rewrite deleteConversion_lookup. by rewrite decide_True. }
  assert ((deleteConversion id st).1 = true) as Htrue.
  { unfold deleteConversion, getConversion in *; cbn. rewrite Hc.
    by apply bool_decide_eq_true. }
  split_and!.
  - rewrite <- Htrue. by destruct (deleteConversion id st).
  - done.
  - by apply deleteConversion_absent.
  - unfold deleteRoute. destruct (deleteConversion id st) as [deleted st1].
    cbn in Htrue. by subst deleted.
  - apply deleteRoute_store.
  - unfold deleteRoute, lookup_parsed. cbn [mbind option_bind].
    rewrite Hgone. by rewrite deleteConversion_absent.
Qed.
End SystemFacts.

(** * The bulk routes *)

Section BulkFacts.
Context `{!Collaborators}.

Lemma is_valid_resolves (st : MemStorage) (id : option Z) :
  is_valid (lookup_parsed id st) = resolves st id.
Proof.
  unfold is_valid, resolves. destruct (lookup_parsed id st) as [conv|]; [|done].
  f_equal. apply bool_decide_ext, not_eq_None_Some.
Qed.

Lemma valid_none_resolves (st : MemStorage) (ids : list (option Z)) :
  bool_decide
    (length (List.filter is_valid (map (λ id, lookup_parsed id st) ids)) = 0%nat)
  = negb (existsb (resolves st) ids).
Proof.
  induction ids as [|id ids IH]; [done|].
  cbn [map List.filter existsb]. rewrite <- is_valid_resolves.
  destruct (is_valid (lookup_parsed id st)); [done|]. by rewrite IH.
Qed.

(** The two passes of the handler (filter, then the loop with its own
    checks) select what the one pass of [archive_entry] selects. *)
Lemma archive_files_entries (pathExists : string → bool) (st : MemStorage)
    (ids : list (option Z)) :
  archive_files pathExists
    (List.filter is_valid (map (λ id, lookup_parsed id st) ids))
  = omap (archive_entry pathExists st) ids.
Proof.
  induction ids as [|id ids IH]; [done|].
  cbn [map List.filter omap list_omap]. unfold archive_entry at 1.
  destruct (lookup_parsed id st) as [conv|]; cbn; [|done].
  destruct (bool_decide (status conv = "completed")); cbn; [|done].
  destruct (filePath conv) as [path|] eqn:Hpath; cbn; [|done].
  rewrite Hpath.
  by destruct (bool_decide (path ≠ "") && pathExists (downloadsPath path));
    cbn; rewrite IH.
Qed.

(** C6, as the code has it: an empty identifier list is answered 400;
    a non-empty list none of whose identifiers resolves to a completed
    job with an artifact location is answered 404; otherwise the
    archive holds, in input order, one entry per identifier whose job
    exists, is completed, has a non-empty artifact location, and whose
    backing file is still in the downloads directory. *)
Theorem archive_contents (ids : list (option Z)) (pathExists : string → bool)
    (st : MemStorage) :
  downloadBulk ids pathExists st
  = if bool_decide (ids = []) then JsonMessage 400 "Invalid file IDs"
    else if existsb (resolves st) ids
         then Attachment "converted_files.zip"
                         (omap (archive_entry pathExists st) ids)
         else JsonMessage 404 "No valid files found for download".
Proof.
  unfold downloadBulk. destruct ids as [|id ids]; [done|].
  rewrite bool_decide_eq_false_2 by done.
  rewrite (bool_decide_eq_false_2 (_ = [])) by done.
  rewrite valid_none_resolves, archive_files_entries.
  by destruct (existsb (resolves st) (id :: ids)).
Qed.

(** A body the schema refuses creates nothing. *)
Lemma postBulk_schema_reject (urls : list string) (now : Z)
    (awaits : list (list (Z * event))) (s : system) :
  bulkConversionSchema urls = false →
  postBulk urls now awaits s = (JsonMessage 400 "Invalid request data", s).
Proof. unfold postBulk. by intros ->. Qed.

(** A batch whose first reference [validateURL] refuses creates
    nothing. *)
Lemma postBulk_first_invalid (url : string) (rest : list string) (now : Z)
    (awaits : list (list (Z * event))) (s : system) :
  validateURL url = false →
  (postBulk (url :: rest) now awaits s).2 = s.
Proof.
  intros Hurl. unfold postBulk.
  destruct (bulkConversionSchema (url :: rest)); [|done].
  cbn [bulk_loop]. by rewrite Hurl.
Qed.

(** C1, at a batch of a valid reference followed by one [validateURL]
    refuses, whatever the event loop runs during the handler's [await]:
    the handler answers 400, yet the job of the first reference is in
    the store, pending, and its pipeline is launched. *)
Theorem bulk_rejection_keeps_earlier_jobs (u1 u2 : string) (now : Z)
    (awaits : list (list (Z * event))) :
  zod_url u1 = true → zod_url u2 = true →
  validateURL u1 = true → validateURL u2 = false →
  ∃ c s',
    postBulk [u1; u2] now awaits boot
    = (JsonMessage 400 ("Invalid YouTube URL: " +:+ u2), s')
    ∧ getConversion 1 (store s') = Some c
    ∧ url c = u1 ∧ status c = "pending"
    ∧ pipelines s' !! 1 = Some (Started (Some c)).
Proof.
  intros Hz1 Hz2 Hv1 Hv2. unfold postBulk, bulkConversionSchema.
  cbn [forallb]. rewrite Hz1, Hz2. cbn [andb length].
  rewrite !bool_decide_eq_true_2 by lia. cbn [andb].
  rewrite bulk_loop_cons by (done || apply sys_inv_boot).
  rewrite during_await_idle by done.
  rewrite launch_eq. cbn [bulk_loop fst snd]. rewrite Hv2.
  eexists _, _. split; [done|]. cbn.
  unfold getConversion; cbn. rewrite !lookup_insert_eq. done.
Qed.
End BulkFacts.

(** * The properties on concrete runs *)

Lemma status_moves_forward_witness :
  (∀ url now,
     status (launch url now done_and_failed_state).1 = "pending"
     ∧ getConversion (id (launch url now done_and_failed_state).1)
         (store (launch url now done_and_failed_state).2)
       = Some (launch url now done_and_failed_state).1)
  ∧ (∀ a s' id c c',
       sys_step (H := sample) a done_and_failed_state = Some s' →
       getConversion id (store done_and_failed_state) = Some c →
       getConversion id (store s') = Some c' →
       forward (status c) (status c'))
  ∧ (∀ acts s' id c c',
       sys_run (H := sample) acts done_and_failed_state = Some s' →
       getConversion id (store done_and_failed_state) = Some c →
       terminal (status c) →
       getConversion id (store s') = Some c' →
       status c' = status c).
Proof.
  apply (status_moves_forward (H := sample) done_and_failed_state).
  apply (reachable_run (H := sample) one_done_one_failed boot); [constructor|].
  vm_compute. reflexivity.
Defined.





Lemma update_absent_is_noop_witness :
  (deleteConversion 1 (store done_and_failed_state)).1 = true
  ∧ getConversion 1 (store deleted_state) = None
  ∧ ∀ acts s2,
      sys_run (H := sample) acts deleted_state = Some s2 →
      getConversion 1 (store s2) = None
      ∧ ∀ updates,
          updateConversion 1 updates (store s2) = (None, store s2).
Proof.
  apply (proj2 (update_absent_is_noop (H := sample))
           done_and_failed_state 1 done_job deleted_state).
  - apply (reachable_run (H := sample) one_done_one_failed boot); [constructor|].
    vm_compute. reflexivity.
  - vm_compute. reflexivity.
  - vm_compute. reflexivity.
Defined.

Lemma delete_is_idempotent_witness :
  ∃ st1,
    deleteConversion 1 sample_store = (true, st1)
    ∧ getConversion 1 st1 = None
    ∧ deleteConversion 1 st1 = (false, st1)
    ∧ (deleteRoute (H := sample) (Some 1) sample_store).1.1
      = JsonMessage 200 "Conversion deleted successfully"
    ∧ (deleteRoute (H := sample) (Some 1) sample_store).2 = st1
    ∧ deleteRoute (H := sample) (Some 1) st1
      = (JsonMessage 404 "Conversion not found", None, st1).
Proof.
  apply (delete_is_idempotent (H := sample) 1 sample_store sample_job).
  reflexivity.
Defined.

(** C6 fails on the code: job 1 is completed with an artifact location,
    but its file is gone from the downloads directory; the archive is
    sent with no entry for it. *)
Lemma archive_omits_job_without_file :
  resolves (store done_and_failed_state) (Some 1) = true
  ∧ downloadBulk (H := sample) [Some 1] (λ _, false)
      (store done_and_failed_state)
    = Attachment "converted_files.zip" [].
Proof. split; by vm_compute. Qed.

(** An empty identifier list is a validation error, not a not-found. *)
Example archive_of_nothing :
  downloadBulk (H := sample) [] (λ _, true) (store done_and_failed_state)
  = JsonMessage 400 "Invalid file IDs".
Proof. by vm_compute. Qed.

(** One completed job, one failed job and an unknown identifier, all
    files in place: one entry, the completed job's artifact. *)
Example archive_one_of_three :
  downloadBulk (H := sample) [Some 1; Some 2; Some 99] (λ _, true)
    (store done_and_failed_state)
  = Attachment "converted_files.zip" [("downloads/1_2000.mp3", "Song_1.mp3")].
Proof. by vm_compute. Qed.

(** Only unknown or unfinished jobs: not found. *)
Example archive_of_unfinished :
  downloadBulk (H := sample) [Some 2; Some 99; None] (λ _, true)
    (store done_and_failed_state)
  = JsonMessage 404 "No valid files found for download".
Proof. by vm_compute. Qed.

Lemma bulk_rejection_keeps_earlier_jobs_witness :
  ∃ c s',
    postBulk (H := sample) [sample_url; "https://example.com/video"] 1000 []
      boot
    = (JsonMessage 400
         ("Invalid YouTube URL: " +:+ "https://example.com/video"), s')
    ∧ getConversion 1 (store s') = Some c
    ∧ url c = sample_url ∧ status c = "pending"
    ∧ pipelines s' !! 1 = Some (Started (Some c)).
Proof.
  apply (bulk_rejection_keeps_earlier_jobs (H := sample) sample_url
           "https://example.com/video" 1000 []); reflexivity.
Defined.

(** * The iteration order of the store's maps *)

Section Entries.
Context {V : Type}.
Implicit Types (m : gmap Z V) (l : list (Z * V)) (ks : list Z).

Lemma JsMap_set_fresh (k : Z) (v : V) l :
  k ∉ l.*1 → JsMap.set k v l = (l ++ [(k, v)])%list.
Proof.
  induction l as [|[k' v'] l IH]; cbn; [done|].
  rewrite not_elem_of_cons. intros [Hne Hl].
  rewrite decide_False by done. by rewrite IH.
Qed.

Lemma elem_of_pick m ks (k : Z) (v : V) :
  (k, v) ∈ omap (λ k, (k,.) <$> m !! k) ks ↔ k ∈ ks ∧ m !! k = Some v.
Proof.
  rewrite list_elem_of_omap. split.
  - intros (k' & Hk' & Hv). destruct (m !! k') eqn:E; simplify_eq/=. done.
  - intros [Hk Hv]. exists k. by rewrite Hv.
Qed.

Lemma pick_keys m ks (k : Z) :
  k ∈ (omap (λ k, (k,.) <$> m !! k) ks).*1 → k ∈ ks.
Proof.
  rewrite list_elem_of_fmap. intros ([k' v] & -> & Hin).
  by apply elem_of_pick in Hin as [? _].
Qed.

Lemma pick_insert_other m ks (k : Z) (v : V) :
  k ∉ ks →
  omap (λ k', (k',.) <$> <[k:=v]> m !! k') ks
  = omap (λ k', (k',.) <$> m !! k') ks.
Proof.
  induction ks as [|k' ks IH]; [done|].
  rewrite not_elem_of_cons. intros [Hne Hks]. cbn.
  rewrite lookup_insert_ne by done. by rewrite IH.
Qed.

Lemma pick_insert_present m ks (k : Z) (v : V) :
  NoDup ks → k ∈ ks → is_Some (m !! k) →
  omap (λ k', (k',.) <$> <[k:=v]> m !! k') ks
  = JsMap.set k v (omap (λ k', (k',.) <$> m !! k') ks).
Proof.
  intros Hnd Hin [v0 Hv0]. induction ks as [|k' ks IH]; [by inversion Hin|].
  apply NoDup_cons in Hnd as [Hk' Hnd]. cbn.
  destruct (decide (k' = k)) as [->|Hne].
  - rewrite lookup_insert_eq, Hv0. cbn. rewrite decide_True by done.
    by rewrite pick_insert_other.
  - rewrite lookup_insert_ne by done.
    apply elem_of_cons in Hin as [?|Hin]; [congruence|].
    rewrite (IH Hnd Hin).
    destruct (m !! k'); cbn; [|done]. by rewrite decide_False.
Qed.

Lemma pick_delete m ks (k : Z) :
  NoDup ks →
  omap (λ k', (k',.) <$> delete k m !! k') ks
  = JsMap.delete k (omap (λ k', (k',.) <$> m !! k') ks).
Proof.
  intros Hnd. induction ks as [|k' ks IH]; [done|].
  apply NoDup_cons in Hnd as [Hk' Hnd]. cbn.
  destruct (decide (k' = k)) as [->|Hne].
  - rewrite lookup_delete_eq. cbn.
    assert (omap (λ k', (k',.) <$> delete k m !! k') ks
            = omap (λ k', (k',.) <$> m !! k') ks) as ->.
    { clear IH Hnd. induction ks as [|k'' ks IH]; [done|].
      apply not_elem_of_cons in Hk' as [Hne Hks]. cbn.
      rewrite lookup_delete_ne by done. by rewrite IH. }
    destruct (m !! k); cbn; [by rewrite decide_True|].
    symmetry. clear Hnd IH.
    induction ks as [|k'' ks IH]; [done|].
    apply not_elem_of_cons in Hk' as [Hne Hks]. cbn.
    destruct (m !! k''); cbn; [|by apply IH].
    rewrite decide_False by done. by rewrite IH.
  - rewrite lookup_delete_ne by done. rewrite (IH Hnd).
    destruct (m !! k'); cbn; [|done]. by rewrite decide_False.
Qed.

Lemma pick_get m ks (k : Z) :
  JsMap.get k (omap (λ k', (k',.) <$> m !! k') ks)
  = if decide (k ∈ ks) then m !! k else None.
Proof.
  induction ks as [|k' ks IH]; [done|]. cbn.
  destruct (m !! k') as [v'|] eqn:Hv'; cbn.
  - destruct (decide (k' = k)) as [->|Hne].
    + by rewrite decide_True by left.
    + rewrite IH. destruct (decide (k ∈ ks)) as [Hin|Hin].
      * by rewrite decide_True by (by right).
      * rewrite decide_False; [done|].
        rewrite elem_of_cons. by intros [?|?].
  - rewrite IH. destruct (decide (k ∈ ks)) as [Hin|Hin].
    + by rewrite decide_True by (by right).
    + destruct (decide (k ∈ k' :: ks)) as [Hin'|]; [|done].
      apply elem_of_cons in Hin' as [->|?]; done.
Qed.

(** The store's map after [new Map()]. *)
Lemma entries_empty : entries (∅ : gmap Z V) 1 = [].
Proof. done. Qed.

Lemma elem_of_entries m (next k : Z) (v : V) :
  keys_below m next → (k, v) ∈ entries m next ↔ m !! k = Some v.
Proof.
  intros [Hn Hkeys]. unfold entries. rewrite elem_of_pick, elem_of_seqZ.
  split; [by intros [_ ?]|]. intros Hv. split; [|done].
  specialize (Hkeys k (mk_is_Some _ _ Hv)). lia.
Qed.

Lemma entries_get m (next k : Z) :
  keys_below m next → JsMap.get k (entries m next) = m !! k.
Proof.
  intros [Hn Hkeys]. unfold entries. rewrite pick_get.
  case_decide as Hin; [done|]. rewrite elem_of_seqZ in Hin.
  destruct (m !! k) eqn:Hv; [|done].
  specialize (Hkeys k (mk_is_Some _ _ Hv)). lia.
Qed.

(** [set] on the counter's key appends. *)
Lemma entries_create m (next : Z) (v : V) :
  keys_below m next →
  entries (<[next:=v]> m) (next + 1) = JsMap.set next v (entries m next)
  ∧ JsMap.set next v (entries m next)
    = (entries m next ++ [(next, v)])%list.
Proof.
  intros [Hn Hkeys].
  assert (JsMap.set next v (entries m next)
          = (entries m next ++ [(next, v)])%list) as Hset.
  { apply JsMap_set_fresh. intros Hin%pick_keys.
    apply elem_of_seqZ in Hin. lia. }
  split; [|done]. rewrite Hset. unfold entries.
  replace (next + 1 - 1) with ((next - 1) + 1) by lia.
  rewrite seqZ_app by lia. rewrite omap_app.
  rewrite pick_insert_other by (rewrite elem_of_seqZ; lia).
  f_equal. replace (1 + (next - 1)) with next by lia.
  rewrite seqZ_cons, seqZ_nil by lia. cbn. by rewrite lookup_insert_eq.
Qed.

(** [set] on a present key keeps the entry's place. *)
Lemma entries_update m (next k : Z) (v : V) :
  keys_below m next → is_Some (m !! k) →
  entries (<[k:=v]> m) next = JsMap.set k v (entries m next).
Proof.
  intros [Hn Hkeys] Hk. unfold entries.
  apply pick_insert_present; [apply NoDup_seqZ| |done].
  apply elem_of_seqZ. specialize (Hkeys k Hk). lia.
Qed.

Lemma entries_delete m (next k : Z) :
  entries (delete k m) next = JsMap.delete k (entries m next).
Proof. unfold entries. apply pick_delete, NoDup_seqZ. Qed.

Lemma pick_sorted m ks :
  StronglySorted Z.lt ks →
  StronglySorted Z.lt (omap (λ k', (k',.) <$> m !! k') ks).*1.
Proof.
  induction 1 as [|k ks Hs IH Hall]; [constructor|]. cbn.
  destruct (m !! k) as [v|]; cbn; [|done].
  constructor; [done|]. apply Forall_forall. intros k' Hk'%pick_keys.
  by eapply Forall_forall in Hall.
Qed.

Lemma seqZ_sorted (a n : Z) : StronglySorted Z.lt (seqZ a n).
Proof.
  destruct (decide (0 ≤ n)) as [Hn|Hn]; [|rewrite seqZ_nil by lia; constructor].
  revert a. pattern n. apply natlike_ind; [| |done].
  - intros a. rewrite seqZ_nil by lia. constructor.
  - intros x Hx IH a. rewrite seqZ_cons by lia.
    replace (Z.pred (Z.succ x)) with x by lia.
    constructor; [apply IH|]. apply Forall_seqZ. lia.
Qed.

Lemma entries_sorted m (next : Z) : StronglySorted Z.lt (entries m next).*1.
Proof. apply pick_sorted, seqZ_sorted. Qed.

Lemma pick_NoDup m ks :
  NoDup ks → NoDup (omap (λ k', (k',.) <$> m !! k') ks).
Proof.
  induction 1 as [|k ks Hk Hnd IH]; cbn; [constructor|].
  destruct (m !! k) as [v|]; cbn; [|done].
  constructor; [|done]. by intros [? _]%elem_of_pick.
Qed.

(** The listing holds exactly the entries of the map. *)
Lemma entries_perm m (next : Z) :
  keys_below m next → entries m next ≡ₚ map_to_list m.
Proof.
  intros Hwf. apply NoDup_Permutation.
  - apply pick_NoDup, NoDup_seqZ.
  - apply NoDup_map_to_list.
  - intros [k v]. rewrite elem_of_map_to_list. by apply elem_of_entries.
Qed.
End Entries.

(** * The listings *)

Lemma sort_insert_perm (a : Conversion) (l : list Conversion) :
  sort_insert a l ≡ₚ a :: l.
Proof.
  induction l as [|b l IH]; cbn; [done|].
  case_decide; [|done]. rewrite IH. apply Permutation_swap.
Qed.

Lemma sort_newest_first_perm (l : list Conversion) : sort_newest_first l ≡ₚ l.
Proof.
  induction l as [|a l IH]; cbn; [done|].
  by rewrite sort_insert_perm, IH.
Qed.

Lemma sort_insert_sorted (a : Conversion) (l : list Conversion) :
  Sorted newer_or_same l → Sorted newer_or_same (sort_insert a l).
Proof.
  induction 1 as [|b l Hs IH Hhd]; cbn.
  - by repeat constructor.
  - case_decide as Hlt.
    + constructor; [done|]. destruct l as [|b' l]; cbn in *.
      * constructor. unfold newer_or_same. lia.
      * case_decide; constructor; [by inversion Hhd|unfold newer_or_same; lia].
    + constructor; [by constructor|]. constructor. unfold newer_or_same. lia.
Qed.

Lemma sort_newest_first_sorted (l : list Conversion) :
  Sorted newer_or_same (sort_newest_first l).
Proof.
  induction l as [|a l IH]; cbn; [constructor|]. by apply sort_insert_sorted.
Qed.

(** Stability: the jobs of one creation time keep their order. *)
Lemma sort_insert_stable (t : Z) (a : Conversion) (l : list Conversion) :
  filter (λ c, created_time c = t) (sort_insert a l)
  = filter (λ c, created_time c = t) (a :: l).
Proof.
  induction l as [|b l IH]; cbn; [done|].
  case_decide as Hlt; [|done].
  rewrite !filter_cons in *. rewrite IH.
  repeat case_decide; try done; lia.
Qed.

Lemma sort_newest_first_stable (t : Z) (l : list Conversion) :
  filter (λ c, created_time c = t) (sort_newest_first l)
  = filter (λ c, created_time c = t) l.
Proof.
  unfold sort_newest_first. induction l as [|a l IH]; cbn [foldr]; [done|].
  rewrite sort_insert_stable, !filter_cons. by rewrite IH.
Qed.

(** * The store under any sequence of calls *)

Lemma store_wf_new : store_wf newMemStorage.
Proof. split; [done|]. intros k [c Hc]. by cbn in Hc. Qed.

Lemma store_apply_wf (st : MemStorage) (op : store_op) :
  store_wf st → store_wf (store_apply st op).
Proof.
  intros [Hn Hkeys]. destruct op as [ins now|id updates|id]; cbn.
  - split; cbn; [lia|]. intros k. rewrite lookup_insert. case_decide.
    + intros _. lia.
    + intros Hk%Hkeys. lia.
  - unfold updateConversion.
    destruct (conversions st !! id) as [existing|] eqn:E; cbn; [|done].
    split; cbn; [done|]. intros k. rewrite lookup_insert. case_decide.
    + intros _. subst k. apply Hkeys. by rewrite E.
    + apply Hkeys.
  - split; cbn; [done|]. intros k. rewrite lookup_delete. case_decide.
    + by intros [? ?].
    + apply Hkeys.
Qed.

Lemma store_run_wf (ops : list store_op) (st : MemStorage) :
  store_wf st → store_wf (store_run ops st).
Proof.
  revert st. induction ops as [|op ops IH]; intros st Hwf; [done|].
  cbn. by apply IH, store_apply_wf.
Qed.

Lemma store_apply_counter (st : MemStorage) (op : store_op) :
  currentConversionId st ≤ currentConversionId (store_apply st op).
Proof.
  destruct op as [ins now|id updates|id]; cbn; [lia| |done].
  by rewrite updateConversion_counter.
Qed.

Lemma store_run_counter (ops : list store_op) (st : MemStorage) :
  currentConversionId st ≤ currentConversionId (store_run ops st).
Proof.
  revert st. induction ops as [|op ops IH]; intros st; [done|]. cbn.
  etrans; [apply (store_apply_counter st op)|apply IH].
Qed.

(** X1: on a store whose keys all came from the counter,
    [createConversion] hands out an identifier under which nothing is
    stored, stores the new record there so that [getConversion] returns
    it, and leaves every other job as it was; whatever calls follow
    (deletions included), every later [createConversion] returns a
    strictly larger identifier. *)
Theorem createConversion_fresh_id (insertConversion : InsertConversion)
    (now : Z) (st : MemStorage) :
  store_wf st →
  let created := (createConversion insertConversion now st).1 in
  let st' := (createConversion insertConversion now st).2 in
  getConversion (id created) st = None
  ∧ getConversion (id created) st' = Some created
  ∧ (∀ k, k ≠ id created → getConversion k st' = getConversion k st)
  ∧ store_wf st'
  ∧ ∀ ops insertConversion' now',
      id created
      < id (createConversion insertConversion' now' (store_run ops st')).1.
Proof.
  intros Hwf created st'. unfold getConversion. cbn. split_and!.
  - destruct (conversions st !! currentConversionId st) eqn:E; [|done].
    destruct Hwf as [_ Hkeys].
    specialize (Hkeys _ (mk_is_Some _ _ E)). lia.
  - by rewrite lookup_insert_eq.
  - intros k Hk. by rewrite lookup_insert_ne.
  - by apply (store_apply_wf st (OpCreate insertConversion now)).
  - intros ops ins' now'.
    pose proof (store_run_counter ops st') as Hle. cbn in Hle. lia.
Qed.

(** X2: the [Map] of conversions iterates by ascending identifier.  On a
    store whose keys all came from the counter, the listing by ascending
    key follows the [Map]'s insertion order through every method:
    [createConversion] appends its record, [updateConversion] replaces
    the record in place, [deleteConversion] removes it; a lookup in the
    listing is [getConversion]. *)
Theorem iteration_is_insertion_order (st : MemStorage) :
  store_wf st →
  StronglySorted Z.lt (iteration st).*1
  ∧ (∀ id, JsMap.get id (iteration st) = getConversion id st)
  ∧ (∀ insertConversion now,
       iteration (createConversion insertConversion now st).2
       = JsMap.set (currentConversionId st)
           (createConversion insertConversion now st).1 (iteration st)
       ∧ iteration (createConversion insertConversion now st).2
         = (iteration st
            ++ [(currentConversionId st,
                 (createConversion insertConversion now st).1)])%list)
  ∧ (∀ id updates,
       iteration (updateConversion id updates st).2
       = match JsMap.get id (iteration st) with
         | Some existing =>
             JsMap.set id (spread existing updates) (iteration st)
         | None => iteration st
         end)
  ∧ (∀ id, iteration (deleteConversion id st).2
           = JsMap.delete id (iteration st)).
Proof.
  intros Hwf. unfold iteration. split_and!.
  - apply entries_sorted.
  - intros id. by apply entries_get.
  - intros ins now.
    destruct (entries_create (conversions st) (currentConversionId st)
                (createConversion ins now st).1 Hwf) as [H1 H2].
    split; [exact H1|exact (eq_trans H1 H2)].
  - intros id updates. rewrite entries_get by done.
    unfold updateConversion.
    destruct (conversions st !! id) as [existing|] eqn:E; cbn; [|done].
    apply entries_update; [done|]. by rewrite E.
  - intros id. cbn. apply entries_delete.
Qed.

Lemma elem_of_iteration_values (st : MemStorage) (c : Conversion) :
  store_wf st →
  c ∈ JsMap.values (iteration st) ↔ ∃ k, getConversion k st = Some c.
Proof.
  intros Hwf. unfold JsMap.values, iteration, getConversion.
  rewrite list_elem_of_fmap. split.
  - intros ([k c'] & -> & Hin). exists k. by apply elem_of_entries in Hin.
  - intros [k Hk]. exists (k, c). split; [done|]. by apply elem_of_entries.
Qed.

Lemma getAllConversions_member (st : MemStorage) (c : Conversion) :
  store_wf st →
  (∃ k, getConversion k st = Some c) → c ∈ getAllConversions st.
Proof.
  intros Hwf Hc. unfold getAllConversions.
  rewrite sort_newest_first_perm. by apply elem_of_iteration_values.
Qed.

(** X3: [getAllConversions] returns every stored job exactly as often as
    the store holds it, most recent creation time first (a job without a
    creation time counting as time 0); jobs of equal creation time keep
    the order of the [Map], ascending identifier. *)
Theorem getAllConversions_newest_first (st : MemStorage) :
  store_wf st →
  getAllConversions st ≡ₚ JsMap.values (iteration st)
  ∧ (∀ c, c ∈ getAllConversions st ↔ ∃ k, getConversion k st = Some c)
  ∧ length (getAllConversions st) = size (conversions st)
  ∧ Sorted newer_or_same (getAllConversions st)
  ∧ ∀ t, filter (λ c, created_time c = t) (getAllConversions st)
         = filter (λ c, created_time c = t) (JsMap.values (iteration st)).
Proof.
  intros Hwf. unfold getAllConversions. split_and!.
  - apply sort_newest_first_perm.
  - intros c. rewrite sort_newest_first_perm.
    by apply elem_of_iteration_values.
  - rewrite sort_newest_first_perm. unfold JsMap.values, iteration.
    rewrite length_fmap, (entries_perm _ _ Hwf). by rewrite length_map_to_list.
  - apply sort_newest_first_sorted.
  - intros t. apply sort_newest_first_stable.
Qed.

(** X4: [getConversionsByStatus] returns exactly the stored jobs whose
    status is the requested string, in the order of the [Map]. *)
Theorem getConversionsByStatus_exact (s : string) (st : MemStorage) :
  store_wf st →
  (∀ c, c ∈ getConversionsByStatus s st
        ↔ status c = s ∧ ∃ k, getConversion k st = Some c)
  ∧ getConversionsByStatus s st `sublist_of` JsMap.values (iteration st)
  ∧ Forall (λ c, status c = s) (getConversionsByStatus s st).
Proof.
  intros Hwf. unfold getConversionsByStatus. split_and!.
  - intros c. rewrite list_elem_of_filter.
    by rewrite elem_of_iteration_values.
  - apply sublist_filter.
  - apply Forall_forall. by intros c [? _]%list_elem_of_filter.
Qed.

(** * The user store *)

Lemma users_wf_new : Users.wf Users.new.
Proof. split; [done|]. intros k [u Hu]. by cbn in Hu. Qed.

Lemma createUser_wf (insertUser : Users.InsertUser) (st : Users.Storage) :
  Users.wf st → Users.wf (Users.createUser insertUser st).2.
Proof.
  intros [Hn Hkeys]. split; cbn; [lia|].
  intros k. rewrite lookup_insert. case_decide.
  - intros _. lia.
  - intros Hk%Hkeys. lia.
Qed.

Lemma find_app_l {A : Type} (f : A → bool) (l1 l2 : list A) (x : A) :
  List.find f l1 = Some x → List.find f (l1 ++ l2) = Some x.
Proof.
  induction l1 as [|a l1 IH]; cbn; [done|]. by destruct (f a).
Qed.

Lemma find_app_r {A : Type} (f : A → bool) (l1 l2 : list A) :
  List.find f l1 = None → List.find f (l1 ++ l2) = List.find f l2.
Proof.
  induction l1 as [|a l1 IH]; cbn; [done|]. by destruct (f a).
Qed.

(** X5: [createUser] stores the new user under the next identifier,
    where no user was stored, and [getUser] then returns it; the other
    users are untouched.  It does not look at the user name: when the
    name is already taken, [getUserByUsername] keeps returning the
    earlier user; when it is free, it returns the new one. *)
Theorem createUser_then_lookup (insertUser : Users.InsertUser)
    (st : Users.Storage) :
  Users.wf st →
  let user := (Users.createUser insertUser st).1 in
  let st' := (Users.createUser insertUser st).2 in
  Users.id user = Users.currentUserId st
  ∧ Users.getUser (Users.id user) st = None
  ∧ Users.getUser (Users.id user) st' = Some user
  ∧ (∀ k, k ≠ Users.id user → Users.getUser k st' = Users.getUser k st)
  ∧ Users.getUserByUsername (Users.ins_username insertUser) st'
    = match Users.getUserByUsername (Users.ins_username insertUser) st with
      | Some earlier => Some earlier
      | None => Some user
      end
  ∧ (∀ name, name ≠ Users.ins_username insertUser →
             Users.getUserByUsername name st'
             = Users.getUserByUsername name st).
Proof.
  intros Hwf user st'.
  destruct (entries_create (Users.users st) (Users.currentUserId st)
              user Hwf) as [H1 H2].
  assert (∀ name,
            Users.getUserByUsername name st'
            = List.find (λ u, bool_decide (Users.username u = name))
                ((entries (Users.users st) (Users.currentUserId st)).*2
                 ++ [user])%list) as Hfind.
  { intros name. unfold Users.getUserByUsername, JsMap.values.
    change (entries (Users.users st') (Users.currentUserId st'))
      with (entries (<[Users.currentUserId st := user]> (Users.users st))
              (Users.currentUserId st + 1)).
    by rewrite H1, H2, fmap_app. }
  unfold Users.getUser. split_and!.
  - done.
  - cbn. destruct (Users.users st !! Users.currentUserId st) eqn:E; [|done].
    destruct Hwf as [_ Hkeys]. specialize (Hkeys _ (mk_is_Some _ _ E)). lia.
  - cbn. by rewrite lookup_insert_eq.
  - intros k Hk. cbn. by rewrite lookup_insert_ne.
  - rewrite Hfind. unfold Users.getUserByUsername, JsMap.values.
    destruct (List.find _ (entries _ _).*2) as [earlier|] eqn:E.
    + by apply find_app_l.
    + rewrite find_app_r by done. cbn. by rewrite bool_decide_eq_true_2.
  - intros name Hname. rewrite Hfind.
    unfold Users.getUserByUsername, JsMap.values.
    destruct (List.find _ (entries _ _).*2) as [earlier|] eqn:E.
    + by apply find_app_l.
    + rewrite find_app_r by done. cbn. by rewrite bool_decide_eq_false_2.
Qed.

Lemma find_first {A : Type} (f : A → bool) (l : list A) (x : A) :
  List.find f l = Some x →
  ∃ l1 l2, l = (l1 ++ x :: l2)%list ∧ f x = true ∧ Forall (λ y, f y = false) l1.
Proof.
  induction l as [|a l IH]; cbn; [done|].
  destruct (f a) eqn:Hfa.
  - intros [= ->]. by exists [], l.
  - intros (l1 & l2 & -> & Hx & Hl1)%IH. exists (a :: l1), l2.
    split_and!; [done|done|by constructor].
Qed.

(** X6: [getUserByUsername] finds nothing exactly when no stored user
    has the name; otherwise it returns the stored user of that name with
    the smallest identifier, the one created first. *)
Theorem getUserByUsername_first (name : string) (st : Users.Storage) :
  Users.wf st →
  (Users.getUserByUsername name st = None
   ↔ ∀ k user, Users.getUser k st = Some user → Users.username user ≠ name)
  ∧ ∀ user,
      Users.getUserByUsername name st = Some user →
      Users.username user = name
      ∧ ∃ k, Users.getUser k st = Some user
          ∧ ∀ k' user',
              Users.getUser k' st = Some user' →
              Users.username user' = name → k ≤ k'.
Proof.
  intros Hwf. unfold Users.getUserByUsername, Users.getUser, JsMap.values.
  set (es := entries (Users.users st) (Users.currentUserId st)).
  assert (∀ k user, (k, user) ∈ es ↔ Users.users st !! k = Some user) as Hes.
  { intros k user. by apply elem_of_entries. }
  split.
  - split.
    + intros Hnone k user Hk Hname.
      apply Hes in Hk. apply (list_elem_of_fmap_2 snd) in Hk. cbn in Hk.
      apply list_elem_of_In in Hk.
      pose proof (List.find_none _ _ Hnone _ Hk) as Hf. cbn in Hf.
      by apply bool_decide_eq_false in Hf.
    + intros Hall.
      destruct (List.find _ es.*2) as [user|] eqn:E; [|done].
      apply List.find_some in E as [Hin Hf].
      apply bool_decide_eq_true in Hf.
      apply list_elem_of_In, list_elem_of_fmap in Hin as ([k u] & -> & Hin).
      apply Hes in Hin. by destruct (Hall k u Hin).
  - intros user (l1 & l2 & Hsplit & Hf & Hl1)%find_first.
    apply bool_decide_eq_true in Hf. split; [done|].
    apply fmap_app_inv in Hsplit as (e1 & e2' & -> & Hcons & Hes12).
    symmetry in Hcons.
    apply fmap_cons_inv in Hcons as ([k u] & e2 & -> & -> & ->).
    exists k. cbn. split.
    { apply Hes. rewrite Hes12. apply elem_of_app. right. by left. }
    intros k' user' Hk' Hname'. apply Hes in Hk'.
    pose proof (entries_sorted (Users.users st) (Users.currentUserId st))
      as Hsorted.
    fold es in Hsorted. rewrite Hes12 in Hsorted, Hk'.
    rewrite fmap_app, fmap_cons in Hsorted.
    apply StronglySorted_app in Hsorted as (_ & _ & Hsorted).
    apply StronglySorted_cons in Hsorted as [Hgt _].
    apply elem_of_app in Hk' as [Hk'|Hk'].
    + apply (list_elem_of_fmap_2 snd) in Hk'. cbn in Hk'.
      rewrite Forall_forall in Hl1. specialize (Hl1 user' Hk').
      by apply bool_decide_eq_false in Hl1.
    + apply elem_of_cons in Hk' as [[= -> ->]|Hk']; [lia|].
      apply (list_elem_of_fmap_2 fst) in Hk'. cbn in Hk'.
      rewrite Forall_forall in Hgt. specialize (Hgt k' Hk'). cbn in Hgt. lia.
Qed.

(** * More of the process invariant *)

Section MoreSystemFacts.
Context `{!Collaborators}.

Lemma spread_progress_again (c : Conversion) (v v' : Z) :
  spread (spread c (updates_progress v)) (updates_progress v')
  = spread c (updates_progress v').
Proof. done. Qed.

(** What an entry does to the rest of the pipeline's own job.  The one
    entry a job in a terminal status can receive is a progress report. *)
Lemma pipeline_step_described (k : Z) (stg stg' : stage) (ev : event)
    (st st' : MemStorage) (c : Conversion) :
  pipeline_step k stg ev st = Some (stg', st') →
  getConversion k st = Some c →
  consistent stg c →
  described k stg c →
  ∃ c', getConversion k st' = Some c'
    ∧ described k stg' c'
    ∧ id c' = id c
    ∧ url c' = url c
    ∧ createdAt c' = createdAt c
    ∧ (∀ t, title c = Some t → title c' = Some t)
    ∧ (terminal (status c) →
       ∃ percent,
         ev = ProgressReported percent
         ∧ c' = spread c (updates_progress (percentage percent))).
Proof.
  intros Hstep Hc Hcons (Hid & Hcreated & Hrest).
  assert (terminal (status c) → ∃ transcoder, stg = Finished transcoder)
    as Hterm.
  { destruct stg as [[conv|]| | | |[|]]; cbn in Hcons; eauto;
      try done; destruct Hcons as (Hs & _); rewrite Hs; by intros [?|?]. }
  destruct ev as [|videoTitle now|percent| |size now|error].
  3:{ (* a progress report *)
    destruct (percentage_exact percent) as [_ Hband].
    assert (listening stg = true ∧ stg' = stg
            ∧ st' = progress_listener k percent st) as (Hl & -> & ->).
    { cbn in Hstep. destruct stg as [[conv|]| | | |[|]]; cbn in Hstep;
        by simplify_eq. }
    unfold progress_listener.
    rewrite updateConversion_lookup, decide_True, Hc by done.
    eexists; split; [done|]. cbn [fmap option_fmap option_map].
    split_and!; try done; [|by eauto].
    destruct stg as [[conv|]| | | |[|]]; try done;
      unfold described in *; cbn; split_and!; try done.
    - by destruct Hrest.
    - intros Hs. destruct Hrest as [_ Hfailed].
      destruct (Hfailed Hs) as (? & _). split; [done|].
      eexists; split; [done|lia]. }
  all: destruct stg as [[conv|]| | | |[|]]; cbn in Hstep;
    unfold pipeline_catch in Hstep; simplify_eq; try done;
    try (rewrite updateConversion_lookup, decide_True, Hc by done;
         cbn [fmap option_fmap option_map]);
    eexists; (split; [done|]);
    (split_and!; [| | | | |by intros [? [=]]%Hterm]);
    unfold described, consistent, artifact_free in *; cbn;
    try done; naive_solver eauto with lia.
Qed.

Lemma sys_inv_more_boot : sys_inv_more boot.
Proof. split; [apply store_wf_new|]. intros k c stg Hc. by cbn in Hc. Qed.

Lemma sys_step_inv_more (a : action) (s s' : system) :
  sys_inv s → sys_inv_more s → sys_step a s = Some s' → sys_inv_more s'.
Proof.
  intros [Hjobs Hpipes] [Hwf Hdesc] Hstep.
  destruct a as [url now|k|k ev]; cbn [sys_step] in Hstep.
  - destruct (validateURL url); [|done]. rewrite launch_eq in Hstep.
    simplify_eq/=. split; cbn.
    + apply (store_apply_wf (store s) (OpCreate {| ins_url := url |} now) Hwf).
    + intros k c stg. unfold getConversion; cbn. rewrite !lookup_insert.
      case_decide as Hk.
      * intros [= <-] [= <-]. subst k. split_and!; cbn; eauto.
        by intros c0 [= <-].
      * apply Hdesc.
  - simplify_eq. split; cbn [store pipelines]; rewrite deleteRoute_store.
    + apply (store_apply_wf (store s) (OpDelete k) Hwf).
    + intros k' c stg. rewrite deleteConversion_lookup.
      case_decide; [done|]. apply Hdesc.
  - destruct (pipelines s !! k) as [stg|] eqn:Hstg; [|done]. cbn in Hstep.
    destruct (pipeline_step k stg ev (store s)) as [[stg' st']|] eqn:Hpipe;
      [|done].
    simplify_eq/=. split; cbn.
    + destruct (pipeline_step_write _ _ _ _ _ _ Hpipe) as [->|[updates ->]];
        [done|].
      apply (store_apply_wf (store s) (OpUpdate k updates) Hwf).
    + intros k' c' stg0 Hc'. rewrite lookup_insert. case_decide as Hk.
      * intros [= <-]. subst k'.
        destruct (getConversion k (store s)) as [c|] eqn:Hc.
        -- destruct (Hjobs k c Hc) as (_ & stg0 & Hstg0 & Hcons).
           assert (stg0 = stg) as -> by congruence.
           destruct (pipeline_step_described _ _ _ _ _ _ _ Hpipe Hc Hcons
                       (Hdesc k c stg Hc Hstg)) as (c'' & Hc'' & Hd & _).
           by assert (c'' = c') as <- by congruence.
        -- rewrite (pipeline_step_absent _ _ _ _ _ _ Hpipe Hc) in Hc'.
           congruence.
      * rewrite (pipeline_step_other _ _ _ _ _ _ _ Hpipe Hk) in Hc'.
        by apply Hdesc.
Qed.

Lemma reachable_inv_more (s : system) : reachable s → sys_inv_more s.
Proof.
  induction 1 as [|s a s' Hs IH Hstep]; [apply sys_inv_more_boot|].
  eapply sys_step_inv_more; [by apply reachable_inv|done|done].
Qed.

(** One action, seen from one job: what it leaves alone. *)
Lemma sys_step_job_more (a : action) (s s' : system) (k : Z)
    (c c' : Conversion) :
  sys_inv s → sys_inv_more s →
  sys_step a s = Some s' →
  getConversion k (store s) = Some c →
  getConversion k (store s') = Some c' →
  id c' = id c ∧ url c' = url c ∧ createdAt c' = createdAt c
  ∧ (∀ t, title c = Some t → title c' = Some t)
  ∧ (terminal (status c) →
     c' = c
     ∨ ∃ percent,
         a = Advance k (ProgressReported percent)
         ∧ c' = spread c (updates_progress (percentage percent))).
Proof.
  intros [Hjobs Hpipes] [Hwf Hdesc] Hstep Hc Hc'.
  destruct (Hjobs k c Hc) as (Hlt & stg & Hstg & Hcons).
  destruct a as [url now|k0|k0 ev]; cbn [sys_step] in Hstep.
  - destruct (validateURL url); [|done]. rewrite launch_eq in Hstep.
    simplify_eq/=. unfold getConversion in *; cbn in Hc'.
    rewrite lookup_insert_ne in Hc' by lia. simplify_eq. by split_and!; eauto.
  - simplify_eq. cbn [store] in Hc'.
    rewrite deleteRoute_store, deleteConversion_lookup in Hc'.
    case_decide; [done|]. simplify_eq. by split_and!; eauto.
  - destruct (pipelines s !! k0) as [stg0|] eqn:Hstg0; [|done].
    cbn in Hstep.
    destruct (pipeline_step k0 stg0 ev (store s)) as [[stg' st']|] eqn:Hpipe;
      [|done].
    simplify_eq/=. destruct (decide (k0 = k)) as [->|Hne].
    + assert (stg0 = stg) as -> by congruence.
      destruct (pipeline_step_described _ _ _ _ _ _ _ Hpipe Hc Hcons
                  (Hdesc k c stg Hc Hstg))
        as (c'' & Hc'' & _ & ? & ? & ? & ? & Hterm).
      assert (c'' = c') as -> by congruence. split_and!; try done.
      intros (percent & -> & ->)%Hterm. right. by exists percent.
    + rewrite (pipeline_step_other _ _ _ _ _ _ _ Hpipe Hne) in Hc'.
      simplify_eq. by split_and!; eauto.
Qed.

(** A relation between the records of one job that every action keeps
    holds across every run of actions. *)
Lemma sys_run_job (R : relation Conversion) :
  Reflexive R → Transitive R →
  (∀ a s s' k c c',
     sys_inv s → sys_inv_more s → sys_step a s = Some s' →
     getConversion k (store s) = Some c →
     getConversion k (store s') = Some c' → R c c') →
  ∀ acts s s' k c c',
    sys_inv s → sys_inv_more s → sys_run acts s = Some s' →
    getConversion k (store s) = Some c →
    getConversion k (store s') = Some c' → R c c'.
Proof.
  intros Hrefl Htrans Hstep acts. induction acts as [|a acts IH];
    intros s s' k c c' Hinv Hmore Hrun Hc Hc'; cbn in Hrun.
  - injection Hrun as <-. assert (c' = c) as -> by congruence. done.
  - destruct (sys_step a s) as [s1|] eqn:Hs1; [|done]. cbn in Hrun.
    destruct (getConversion k (store s1)) as [c1|] eqn:Hc1.
    + trans c1; [by eapply Hstep|].
      eapply (IH s1 s' k); try done.
      * by eapply sys_step_inv.
      * by eapply sys_step_inv_more.
    + destruct Hinv as [Hjobs _]. destruct (Hjobs k c Hc) as [Hlt _].
      pose proof (sys_step_counter _ _ _ Hs1).
      rewrite (sys_run_absent acts s1 s' k) in Hc'; [done|done|lia|done].
Qed.

Lemma stored_job_facts (s : system) (k : Z) (c : Conversion) :
  reachable s → getConversion k (store s) = Some c →
  ∃ stg, pipelines s !! k = Some stg ∧ consistent stg c ∧ described k stg c.
Proof.
  intros Hs Hc.
  destruct (reachable_inv s Hs) as [Hjobs _].
  destruct (reachable_inv_more s Hs) as [_ Hdesc].
  destruct (Hjobs k c Hc) as (_ & stg & Hstg & Hcons).
  exists stg. split_and!; [done|done|]. by apply Hdesc.
Qed.

(** X7: in every reachable state a stored job carries its own key as
    [id] and has a creation time; and however the process runs on, as
    long as the job is stored its [id], [url] and [createdAt] are the
    ones it was created with. *)
Theorem job_columns_fixed (s : system) :
  reachable s →
  (∀ k c, getConversion k (store s) = Some c →
          id c = k ∧ is_Some (createdAt c))
  ∧ ∀ acts s' k c c',
      sys_run acts s = Some s' →
      getConversion k (store s) = Some c →
      getConversion k (store s') = Some c' →
      id c' = id c ∧ url c' = url c ∧ createdAt c' = createdAt c.
Proof.
  intros Hs. split.
  - intros k c Hc.
    destruct (stored_job_facts s k c Hs Hc) as (stg & _ & _ & Hid & Hcr & _).
    done.
  - intros acts s' k c c'.
    apply (sys_run_job
             (λ c c', id c' = id c ∧ url c' = url c
                      ∧ createdAt c' = createdAt c)).
    + by intros c0.
    + intros c0 c1 c2 (? & ? & ?) (? & ? & ?). split_and!; congruence.
    + intros a s0 s1 k0 c0 c1 Hinv Hmore Hstep Hc0 Hc1.
      destruct (sys_step_job_more _ _ _ _ _ _ Hinv Hmore Hstep Hc0 Hc1)
        as (? & ? & ? & _). done.
    + by apply reachable_inv.
    + by apply reachable_inv_more.
Qed.

(** X8: a job has no title while it is pending, a completed job has
    one, and a title once written is never changed or removed by any
    later action. *)
Theorem title_written_once (s : system) :
  reachable s →
  (∀ k c, getConversion k (store s) = Some c →
          (status c = "pending" → title c = None)
          ∧ (status c = "completed" → is_Some (title c)))
  ∧ ∀ acts s' k c c' t,
      sys_run acts s = Some s' →
      getConversion k (store s) = Some c →
      getConversion k (store s') = Some c' →
      title c = Some t → title c' = Some t.
Proof.
  intros Hs. split.
  - intros k c Hc.
    destruct (stored_job_facts s k c Hs Hc)
      as (stg & _ & Hcons & _ & _ & Hdesc).
    destruct stg as [[conv|]| | | |]; cbn in Hcons, Hdesc;
      try (destruct Hcons as (Hst & _); rewrite Hst; split; [|done];
           try done; by destruct Hdesc as (? & _)).
    + done.
    + split.
      * destruct Hcons as [(_ & Hst & _)|(Hst & _)]; by rewrite Hst.
      * intros Hst. destruct Hdesc as [Hdone _].
        destruct (Hdone Hst) as (t & now & -> & _). done.
  - intros acts s' k c c' t Hrun Hc Hc'. revert t.
    pose proof (reachable_inv s Hs) as Hinv.
    pose proof (reachable_inv_more s Hs) as Hmore. clear Hs.
    revert acts s s' k c c' Hinv Hmore Hrun Hc Hc'.
    apply (sys_run_job
             (λ c c', ∀ t, title c = Some t → title c' = Some t)).
    + by intros c0.
    + intros c0 c1 c2 H01 H12 t Ht. by apply H12, H01.
    + intros a s0 s1 k0 c0 c1 Hinv Hmore Hstep Hc0 Hc1.
      destruct (sys_step_job_more _ _ _ _ _ _ Hinv Hmore Hstep Hc0 Hc1)
        as (_ & _ & _ & Ht & _). done.
Qed.

(** A pipeline that returned without starting the transcoder receives
    nothing any more. *)
Lemma sys_run_no_transcoder (acts : list action) (s s' : system) (k : Z) :
  sys_inv s →
  pipelines s !! k = Some (Finished false) →
  sys_run acts s = Some s' →
  pipelines s' !! k = Some (Finished false)
  ∧ ∀ ev, Advance k ev ∉ acts.
Proof.
  revert s. induction acts as [|a acts IH]; intros s Hinv Hk Hrun;
    cbn in Hrun.
  - simplify_eq. split; [done|]. intros ev. apply not_elem_of_nil.
  - destruct (sys_step a s) as [s1|] eqn:Hstep; [|done]. cbn in Hrun.
    assert (pipelines s1 !! k = Some (Finished false)
            ∧ ∀ ev, a ≠ Advance k ev) as [Hk1 Hne].
    { destruct Hinv as [_ Hpipes]. pose proof (Hpipes k _ Hk) as Hlt.
      destruct a as [url now|k0|k0 ev0]; cbn [sys_step] in Hstep.
      - destruct (validateURL url); [|done]. rewrite launch_eq in Hstep.
        simplify_eq/=. by rewrite lookup_insert_ne by lia.
      - by simplify_eq.
      - destruct (pipelines s !! k0) as [stg0|] eqn:Hstg0; [|done].
        cbn in Hstep.
        destruct (pipeline_step k0 stg0 ev0 (store s))
          as [[stg' st']|] eqn:Hpipe; [|done].
        simplify_eq/=. destruct (decide (k0 = k)) as [->|Hk0].
        + assert (stg0 = Finished false) as -> by congruence.
          by destruct ev0.
        + rewrite lookup_insert_ne by done. split; [done|congruence]. }
    destruct (IH s1) as [Hk' Hnot]; [by eapply sys_step_inv|done|done|].
    split; [done|]. intros ev [Heq|Hin]%elem_of_cons; [by destruct (Hne ev)|].
    by eapply Hnot.
Qed.

(** X9: once a job is completed or failed its record is final in every
    field but [progress]: whatever actions follow, as long as the job
    is stored, its record is what it was, unless a progress report for
    the job was among the actions; then the record differs in the
    progress only, which is the percentage of such a report.  A job
    whose pipeline returned without starting the transcoder (it failed
    on the metadata) is final in every field. *)
Theorem terminal_record_is_final (s : system) (acts : list action)
    (s' : system) (k : Z) (c c' : Conversion) :
  reachable s →
  sys_run acts s = Some s' →
  getConversion k (store s) = Some c →
  terminal (status c) →
  getConversion k (store s') = Some c' →
  (c' = c
   ∨ ∃ percent,
       Advance k (ProgressReported percent) ∈ acts
       ∧ c' = spread c (updates_progress (percentage percent)))
  ∧ (pipelines s !! k = Some (Finished false) → c' = c).
Proof.
  intros Hs Hrun Hc Hterm Hc'.
  pose proof (reachable_inv s Hs) as Hinv.
  pose proof (reachable_inv_more s Hs) as Hmore. clear Hs.
  assert (c' = c
          ∨ ∃ percent,
              Advance k (ProgressReported percent) ∈ acts
              ∧ c' = spread c (updates_progress (percentage percent)))
    as Hfinal.
  { revert s c Hinv Hmore Hrun Hc Hterm.
    induction acts as [|a acts IH]; intros s c Hinv Hmore Hrun Hc Hterm;
      cbn in Hrun.
    - simplify_eq. left. congruence.
    - destruct (sys_step a s) as [s1|] eqn:Hstep; [|done]. cbn in Hrun.
      destruct (getConversion k (store s1)) as [c1|] eqn:Hc1.
      + destruct (sys_step_job_more _ _ _ _ _ _ Hinv Hmore Hstep Hc Hc1)
          as (_ & _ & _ & _ & Hone).
        assert (status c1 = status c) as Hst.
        { by destruct (Hone Hterm) as [->|(percent & _ & ->)]. }
        destruct (IH s1 c1) as [->|(percent' & Hin & ->)]; try done.
        * by eapply sys_step_inv.
        * by eapply sys_step_inv_more.
        * by rewrite Hst.
        * destruct (Hone Hterm) as [->|(percent & -> & ->)]; [by left|].
          right. exists percent. split; [apply list_elem_of_here|done].
        * right. exists percent'. split; [by apply list_elem_of_further|].
          destruct (Hone Hterm) as [->|(percent & _ & ->)]; [done|].
          apply spread_progress_again.
      + destruct Hinv as [Hjobs _]. destruct (Hjobs k c Hc) as [Hlt _].
        pose proof (sys_step_counter _ _ _ Hstep).
        rewrite (sys_run_absent acts s1 s' k) in Hc'; [done|done|lia|done]. }
  split; [done|]. intros Hk.
  destruct (sys_run_no_transcoder acts s s' k Hinv Hk Hrun) as [_ Hnot].
  destruct Hfinal as [->|(percent & Hin & _)]; [done|].
  by destruct (Hnot _ Hin).
Qed.

(** X10: in every reachable state the progress of a stored job follows
    its status: 0 while pending, between 5 and 95 while processing, and
    between 5 and 95 when failed (the last value written); when
    completed it is 100, or between 15 and 95 after a progress report
    that arrived later.  The status is one of these four, and
    [completedAt] is set exactly on completed jobs. *)
Theorem progress_follows_status (s : system) (k : Z) (c : Conversion) :
  reachable s →
  getConversion k (store s) = Some c →
  (∃ v, progress c = Some v
     ∧ (status c = "pending" ∧ v = 0
        ∨ status c = "processing" ∧ 5 ≤ v ≤ 95
        ∨ status c = "completed" ∧ (v = 100 ∨ 15 ≤ v ≤ 95)
        ∨ status c = "failed" ∧ 5 ≤ v ≤ 95))
  ∧ (is_Some (completedAt c) ↔ status c = "completed").
Proof.
  intros Hs Hc.
  destruct (stored_job_facts s k c Hs Hc)
    as (stg & _ & Hcons & _ & _ & Hdesc).
  destruct stg as [[conv|]| | | |transcoder]; cbn in Hcons, Hdesc.
  - destruct Hcons as (Hst & Hp & _), Hdesc as (_ & Hca & _).
    rewrite Hst, Hca. split; [exists 0; eauto|].
    split; [by intros [? ?]|done].
  - done.
  - destruct Hcons as (Hst & Hp & _), Hdesc as (_ & Hca & _).
    rewrite Hst, Hca. split; [exists 5; split; [done|]; right; left; split; [done|lia]|].
    split; [by intros [? ?]|done].
  - destruct Hcons as (Hst & (v & Hp & Hv) & _), Hdesc as (Hca & _).
    rewrite Hst, Hca. split; [exists v; split; [done|]; right; left; split; [done|lia]|].
    split; [by intros [? ?]|done].
  - destruct Hcons as (Hst & (v & Hp & Hv) & _), Hdesc as (Hca & _).
    rewrite Hst, Hca. split; [exists v; split; [done|]; right; left; split; [done|lia]|].
    split; [by intros [? ?]|done].
  - destruct Hcons as [(_ & Hst & (v & Hp & Hv) & _ & _ & _ & Hca & _)
                      |(Hst & _)].
    + rewrite Hst. split; [exists v; eauto 10|done].
    + destruct Hdesc as [_ Hfailed].
      destruct (Hfailed Hst) as (Hca & v & Hp & Hv). rewrite Hst, Hca.
      split; [exists v; eauto 10|]. split; [by intros [? ?]|done].
Qed.

(** X21: in every reachable state each stored job has a pipeline
    instance, and that pipeline has returned exactly when the job is
    completed or failed; a job that is not terminal is never stuck: its
    pipeline still accepts events that take the job to a terminal
    status. *)
Theorem pipeline_finished_iff_terminal (s : system) (k : Z) (c : Conversion) :
  reachable s →
  getConversion k (store s) = Some c →
  ∃ stg,
    pipelines s !! k = Some stg
    ∧ ((∃ transcoder, stg = Finished transcoder) ↔ terminal (status c))
    ∧ (¬ terminal (status c) →
       ∃ evs transcoder st' c',
         pipeline_run k stg evs (store s) = (Finished transcoder, st')
         ∧ getConversion k st' = Some c'
         ∧ terminal (status c')).
Proof.
  intros Hs Hc.
  destruct (stored_job_facts s k c Hs Hc) as (stg & Hstg & Hcons & _).
  exists stg. split; [done|].
  assert (∀ st0 c0 error,
            getConversion k st0 = Some c0 →
            ∃ c', getConversion k (pipeline_catch k error st0) = Some c'
                  ∧ terminal (status c')) as Hcatch.
  { intros st0 c0 error Hc0. unfold pipeline_catch.
    rewrite updateConversion_lookup, decide_True, Hc0 by done. cbn.
    eexists. split; [done|]. by right. }
  destruct stg as [[conv|]| | | |transcoder]; cbn in Hcons.
  - destruct Hcons as (Hst & _). rewrite Hst. split.
    + split; [by intros [? ?]|by intros [?|?]].
    + intros _.
      set (st1 := (updateConversion k updates_processing (store s)).2).
      assert (is_Some (getConversion k st1)) as [c1 Hc1].
      { unfold st1. rewrite updateConversion_lookup, decide_True by done.
        rewrite Hc. by eexists. }
      destruct (Hcatch st1 c1 OtherValue Hc1) as (c' & Hc' & Hterm).
      exists [Resumed; Threw OtherValue]. by eexists _, _, c'.
  - done.
  - destruct Hcons as (Hst & _). rewrite Hst. split.
    + split; [by intros [? ?]|by intros [?|?]].
    + intros _. destruct (Hcatch (store s) c OtherValue Hc)
        as (c' & Hc' & Hterm).
      exists [Threw OtherValue]. by eexists _, _, c'.
  - destruct Hcons as (Hst & _). rewrite Hst. split.
    + split; [by intros [? ?]|by intros [?|?]].
    + intros _. destruct (Hcatch (store s) c OtherValue Hc)
        as (c' & Hc' & Hterm).
      exists [Threw OtherValue]. by eexists _, _, c'.
  - destruct Hcons as (Hst & _). rewrite Hst. split.
    + split; [by intros [? ?]|by intros [?|?]].
    + intros _. destruct (Hcatch (store s) c OtherValue Hc)
        as (c' & Hc' & Hterm).
      exists [Threw OtherValue]. by eexists _, _, c'.
  - split.
    + split; [|by eauto]. intros _.
      destruct Hcons as [(_ & Hst & _)|(Hst & _)]; rewrite Hst;
        [by left|by right].
    + intros Hnt. destruct Hnt.
      destruct Hcons as [(_ & Hst & _)|(Hst & _)]; rewrite Hst;
        [by left|by right].
Qed.

(** A job that appears in the store was just submitted. *)
Lemma sys_step_new_job (a : action) (s s' : system) (k : Z) (c' : Conversion) :
  sys_step a s = Some s' →
  getConversion k (store s) = None →
  getConversion k (store s') = Some c' →
  validateURL (url c') = true.
Proof.
  intros Hstep Hnone Hc'.
  destruct a as [reference now|k0|k0 ev]; cbn [sys_step] in Hstep.
  - destruct (validateURL reference) eqn:Hvalid; [|done].
    rewrite launch_eq in Hstep. simplify_eq/=.
    unfold getConversion in *; cbn in Hc'. rewrite lookup_insert in Hc'.
    case_decide; [by simplify_eq/=|congruence].
  - simplify_eq. cbn [store] in Hc'.
    rewrite deleteRoute_store, deleteConversion_lookup in Hc'.
    case_decide; congruence.
  - destruct (pipelines s !! k0) as [stg0|] eqn:Hstg0; [|done].
    cbn in Hstep.
    destruct (pipeline_step k0 stg0 ev (store s)) as [[stg' st']|] eqn:Hpipe;
      [|done].
    simplify_eq/=. destruct (decide (k0 = k)) as [->|Hne].
    + rewrite (pipeline_step_absent _ _ _ _ _ _ Hpipe Hnone) in Hc'.
      congruence.
    + rewrite (pipeline_step_other _ _ _ _ _ _ _ Hpipe Hne) in Hc'.
      congruence.
Qed.

(** X25: in every reachable state, the URL of every stored job is one
    that [ytdl.validateURL] accepted (also for the jobs a refused bulk
    request left behind), and a pipeline that is fetching metadata
    fetches it for the URL of its own job. *)
Theorem stored_urls_valid (s : system) (k : Z) (c : Conversion) :
  reachable s →
  getConversion k (store s) = Some c →
  validateURL (url c) = true
  ∧ ∀ u, pipelines s !! k = Some (FetchingInfo u) → u = url c.
Proof.
  intros Hs Hc. split.
  - revert k c Hc. induction Hs as [|s a s' Hs IH Hstep]; intros k c' Hc'.
    + by cbn in Hc'.
    + destruct (getConversion k (store s)) as [c|] eqn:Hc.
      * destruct (sys_step_job_more _ _ _ _ _ _ (reachable_inv s Hs)
                    (reachable_inv_more s Hs) Hstep Hc Hc')
          as (_ & -> & _).
        by eapply IH.
      * by eapply sys_step_new_job.
  - intros u Hstg.
    destruct (stored_job_facts s k c Hs Hc) as (stg & Hstg' & _ & Hdesc).
    assert (stg = FetchingInfo u) as -> by congruence.
    by destruct Hdesc as (_ & _ & _ & _ & ->).
Qed.

Lemma reachable_store_wf (s : system) : reachable s → store_wf (store s).
Proof. by intros [Hwf _]%reachable_inv_more. Qed.

(** ** The names of the artifacts *)

Lemma pretty_N_go_no_underscore (x : N) (s : string) :
  no_underscore s → no_underscore (pretty_N_go x s).
Proof.
  revert s. induction (N.lt_wf_0 x) as [x _ IH]; intros s Hs.
  assert (x = 0 ∨ 0 < x)%N as [->|Hx] by lia; [done|].
  rewrite pretty_N_go_step by done. apply IH; [by apply N.div_lt|].
  split; [|done]. unfold pretty_N_char. by repeat case_match.
Qed.

Lemma pretty_Z_no_underscore (z : Z) : no_underscore (pretty z).
Proof.
  assert (∀ x : N, no_underscore (pretty x)) as HN.
  { intros x. unfold pretty, pretty_N. case_decide; [by cbn|].
    by apply pretty_N_go_no_underscore. }
  destruct z as [|p|p]; unfold pretty, pretty_Z; [by cbn|apply HN|].
  split; [done|apply HN].
Qed.

Lemma underscore_split (a b r1 r2 : string) :
  no_underscore a → no_underscore b →
  a +:+ String "_" r1 = b +:+ String "_" r2 → a = b.
Proof.
  revert b. induction a as [|x a IH]; intros [|y b]; cbn.
  - done.
  - intros _ [Hy _] [= <- _]. done.
  - intros [Hx _] _ [= -> _]. done.
  - intros [_ Ha] [_ Hb] [= -> Heq]. f_equal. by apply IH.
Qed.

Lemma artifact_key_inj (k1 now1 k2 now2 : Z) :
  artifact_key k1 now1 = artifact_key k2 now2 → k1 = k2.
Proof.
  unfold artifact_key. intros Heq.
  apply (inj pretty). eapply underscore_split; [..|exact Heq];
    apply pretty_Z_no_underscore.
Qed.

(** X11: in every reachable state, a job with an artifact location is
    completed, its location is its identifier, ["_"], the time the
    metadata arrived and [".mp3"], and its file name is its title with
    ["_"], the identifier and [".mp3"]; so two stored jobs never share an
    artifact location. *)
Theorem artifact_locations_distinct (s : system) :
  reachable s →
  (∀ k c p, getConversion k (store s) = Some c → filePath c = Some p →
     status c = "completed"
     ∧ ∃ t now, title c = Some t
         ∧ p = artifact_key k now
         ∧ fileName c = Some (display_name t k))
  ∧ ∀ k1 k2 c1 c2 p,
      getConversion k1 (store s) = Some c1 →
      getConversion k2 (store s) = Some c2 →
      filePath c1 = Some p → filePath c2 = Some p → k1 = k2.
Proof.
  intros Hs.
  assert (∀ k c p, getConversion k (store s) = Some c → filePath c = Some p →
            status c = "completed"
            ∧ ∃ t now, title c = Some t
                ∧ p = artifact_key k now
                ∧ fileName c = Some (display_name t k)) as Hform.
  { intros k c p Hc Hp.
    destruct (stored_job_facts s k c Hs Hc)
      as (stg & _ & Hcons & _ & _ & Hdesc).
    destruct stg as [[conv|]| | | |]; cbn in Hcons, Hdesc;
      try (destruct Hcons as (_ & _ & (Hnone & _) & _); congruence).
    - done.
    - destruct Hcons as [(_ & Hst & _)|(_ & _ & (Hnone & _))]; [|congruence].
      split; [done|]. destruct Hdesc as [Hdone _].
      destruct (Hdone Hst) as (t & now & Ht & Hname & Hpath).
      exists t, now. split_and!; [done| |done]. congruence. }
  split; [done|].
  intros k1 k2 c1 c2 p Hc1 Hc2 Hp1 Hp2.
  destruct (Hform k1 c1 p Hc1 Hp1) as (_ & _ & now1 & _ & -> & _).
  destruct (Hform k2 c2 _ Hc2 Hp2) as (_ & _ & now2 & _ & Heq & _).
  by eapply artifact_key_inj.
Qed.
End MoreSystemFacts.

(** * The pipeline, run alone *)

Section PipelineRuns.
Context `{!Collaborators}.

Lemma pipeline_run_step (k : Z) (stg : stage) (ev : event) (evs : list event)
    (st : MemStorage) :
  pipeline_run k stg (ev :: evs) st
  = match pipeline_step k stg ev st with
    | Some (stg', st') => pipeline_run k stg' evs st'
    | None => (stg, st)
    end.
Proof. done. Qed.

(** X12: a pipeline run, whatever its stage and whatever events it is
    fed, leaves the identifier counter and every job but its own as
    they are, neither creates nor removes its own job, and changes
    nothing at all once its job is gone from the store. *)
Theorem pipeline_run_isolated (k : Z) (stg : stage) (evs : list event)
    (st : MemStorage) :
  currentConversionId (pipeline_run k stg evs st).2 = currentConversionId st
  ∧ (∀ k', k' ≠ k →
       getConversion k' (pipeline_run k stg evs st).2 = getConversion k' st)
  ∧ (is_Some (getConversion k (pipeline_run k stg evs st).2)
     ↔ is_Some (getConversion k st))
  ∧ (getConversion k st = None → (pipeline_run k stg evs st).2 = st).
Proof.
  revert stg st. induction evs as [|ev evs IH]; intros stg st; [done|].
  rewrite pipeline_run_step.
  destruct (pipeline_step k stg ev st) as [[stg' st']|] eqn:Hstep; [|done].
  destruct (IH stg' st') as (Hn & Hother & Hown & Hgone).
  split_and!.
  - rewrite Hn. by eapply pipeline_step_counter.
  - intros k' Hk'. rewrite Hother by done.
    by eapply pipeline_step_other.
  - rewrite Hown.
    destruct (pipeline_step_write _ _ _ _ _ _ Hstep) as [->|[updates ->]];
      [done|].
    rewrite updateConversion_lookup, decide_True by done.
    destruct (getConversion k st); cbn; split; intros [? ?]; eauto.
  - intros Hnone.
    pose proof (pipeline_step_absent _ _ _ _ _ _ Hstep Hnone) as ->.
    by apply Hgone.
Qed.

Lemma run_reports (k : Z) (fileName filePath : string)
    (reports : list (option number)) (rest : list event) (st : MemStorage)
    (c : Conversion) :
  getConversion k st = Some c →
  ∃ st',
    pipeline_run k (Transcoding fileName filePath)
      ((ProgressReported <$> reports) ++ rest) st
    = pipeline_run k (Transcoding fileName filePath) rest st'
    ∧ getConversion k st'
      = Some match last (percentage <$> reports) with
             | Some v => spread c (updates_progress v)
             | None => c
             end.
Proof.
  revert st c. induction reports as [|p reports IH]; intros st c Hc.
  - by exists st.
  - cbn [fmap list_fmap app]. rewrite pipeline_run_step.
    cbn [pipeline_step listening]. unfold progress_listener.
    set (st1 := (updateConversion k (updates_progress (percentage p)) st).2).
    assert (getConversion k st1
            = Some (spread c (updates_progress (percentage p)))) as Hc1.
    { unfold st1. rewrite updateConversion_lookup, decide_True by done.
      by rewrite Hc. }
    destruct (IH st1 _ Hc1) as (st' & Hrun & Hc').
    exists st'. split; [done|]. rewrite Hc'. f_equal.
    destruct reports as [|p' reports]; [done|].
    rewrite !fmap_cons, last_cons_cons.
    destruct (last (percentage p' :: (percentage <$> reports))) eqn:E;
      [done|].
    by apply last_None in E.
Qed.

(** X13: started on a stored job and fed the events of a run in which
    nothing fails (the metadata, any progress reports, the end of the
    transcoding, the file size), the pipeline finishes and leaves the
    job completed: title the cleaned video title, progress 100, the
    derived location and file name, the size and the completion time;
    [id], [url], [createdAt] and [errorMessage] are the job's own.  The
    progress reports leave no trace. *)
Theorem pipeline_completes (k : Z) (c : Conversion) (st : MemStorage)
    (videoTitle : string) (now : Z) (reports : list (option number))
    (size completed_at : Z) :
  getConversion k st = Some c →
  ∃ st',
    pipeline_run k (processConversion k st)
      ([Resumed; InfoResolved videoTitle now]
       ++ (ProgressReported <$> reports)
       ++ [TranscodeEnded; StatResolved size completed_at]) st
    = (Finished true, st')
    ∧ getConversion k st'
      = Some {| id := id c;
                url := url c;
                title := Some (sanitize videoTitle);
                status := "completed";
                progress := Some 100;
                filePath := Some (artifact_key k now);
                fileName := Some (display_name (sanitize videoTitle) k);
                fileSize := Some size;
                errorMessage := errorMessage c;
                createdAt := createdAt c;
                completedAt := Some completed_at |}.
Proof.
  intros Hc. unfold processConversion. rewrite Hc.
  cbn [app]. do 2 (rewrite pipeline_run_step; cbn [pipeline_step]).
  set (st1 := (updateConversion k updates_processing st).2).
  set (st2 := (updateConversion k (updates_title (sanitize videoTitle)) st1).2).
  assert (getConversion k st2
          = Some (spread (spread c updates_processing)
                    (updates_title (sanitize videoTitle)))) as Hc2.
  { unfold st2, st1.
    rewrite !updateConversion_lookup, !decide_True by done. by rewrite Hc. }
  destruct (run_reports k
              (sanitize videoTitle +:+ "_" +:+ pretty k +:+ ".mp3")
              (pretty k +:+ "_" +:+ pretty now +:+ ".mp3")
              reports [TranscodeEnded; StatResolved size completed_at]
              st2 _ Hc2) as (st3 & Hrun & Hc3).
  rewrite Hrun. do 2 (rewrite pipeline_run_step; cbn [pipeline_step]).
  cbn [pipeline_run]. eexists. split; [done|].
  rewrite updateConversion_lookup, decide_True, Hc3 by done.
  cbn [fmap option_fmap option_map]. f_equal.
  by destruct (last (percentage <$> reports)).
Qed.

End PipelineRuns.

(** * The routes *)

Section MoreRouteFacts.
Context `{!Collaborators}.

Lemma launch_store (url : string) (now : Z) (s : system) :
  store (launch url now s).2
  = (createConversion {| ins_url := url |} now (store s)).2.
Proof. by rewrite launch_eq. Qed.

(** X15: [POST /api/conversions] refuses a URL that [ytdl.validateURL]
    rejects with 400 and changes nothing.  Otherwise, on a store whose
    keys all came from the counter, it answers with the new job: pending,
    for that URL, under an identifier that was free; the job is then what
    [GET /api/conversions/:id] returns and is part of the listing of
    [GET /api/conversions], its pipeline is launched, and no other job
    or pipeline is touched. *)
Theorem postConversion_outcome (reference : string) (now : Z) (s : system) :
  store_wf (store s) →
  (validateURL reference = false →
   postConversion reference now s
   = (JsonMessage 400 "Invalid YouTube URL", s))
  ∧ (validateURL reference = true →
     ∃ c s',
       postConversion reference now s = (JsonConversion c, s')
       ∧ id c = currentConversionId (store s)
       ∧ url c = reference ∧ status c = "pending" ∧ progress c = Some 0
       ∧ getConversion (id c) (store s) = None
       ∧ getRoute (Some (id c)) (store s') = JsonConversion c
       ∧ (∃ cs, listRoute (store s') = JsonConversions cs ∧ c ∈ cs)
       ∧ pipelines s' !! id c = Some (Started (Some c))
       ∧ ∀ k, k ≠ id c →
           getConversion k (store s') = getConversion k (store s)
           ∧ pipelines s' !! k = pipelines s !! k).
Proof.
  intros Hwf. unfold postConversion. split; intros ->; [done|].
  rewrite launch_eq. eexists _, _. split; [done|]. cbn.
  assert (store_wf
            (createConversion {| ins_url := reference |} now (store s)).2)
    as Hwf' by apply (store_apply_wf _ (OpCreate _ now) Hwf).
  split_and!; try done.
  - unfold getConversion.
    destruct (conversions (store s) !! currentConversionId (store s)) eqn:E;
      [|done].
    destruct Hwf as [_ Hkeys]. specialize (Hkeys _ (mk_is_Some _ _ E)). lia.
  - unfold getRoute, lookup_parsed, getConversion. cbn.
    by rewrite lookup_insert_eq.
  - eexists. split; [done|].
    apply (getAllConversions_member _ _ Hwf').
    exists (currentConversionId (store s)). unfold getConversion. cbn.
    by rewrite lookup_insert_eq.
  - by rewrite lookup_insert_eq.
  - intros k Hk. unfold getConversion. cbn.
    by rewrite !lookup_insert_ne.
Qed.











Lemma bulkConversionSchema_refuses (urls : list string) :
  (urls = [] ∨ (10 < length urls)%nat ∨ ∃ u, u ∈ urls ∧ zod_url u = false) →
  bulkConversionSchema urls = false.
Proof.
  intros Hbad. unfold bulkConversionSchema.
  destruct Hbad as [->|[Hlen|(u & Hu & Hz)]].
  - done.
  - rewrite (bool_decide_eq_false_2 (length urls ≤ 10)%nat) by lia.
    by rewrite andb_false_r.
  - assert (forallb zod_url urls = false) as ->; [|done].
    apply not_true_is_false. intros Hall.
    rewrite forallb_forall in Hall.
    apply list_elem_of_In, Hall in Hu. congruence.
Qed.

(** X17: a body the schema refuses (no reference, more than ten, or a
    string that is not a URL) is answered 400 "Invalid request data" and
    nothing is created, whatever [ytdl.validateURL] says of the
    references. *)
Theorem postBulk_schema_bounds (urls : list string) (now : Z)
    (awaits : list (list (Z * event))) (s : system) :
  (urls = [] ∨ (10 < length urls)%nat ∨ ∃ u, u ∈ urls ∧ zod_url u = false) →
  postBulk urls now awaits s = (JsonMessage 400 "Invalid request data", s).
Proof.
  intros Hbad. unfold postBulk.
  by rewrite (bulkConversionSchema_refuses urls Hbad).
Qed.

Lemma or_string_nonempty (s fallback : string) :
  s ≠ "" → or_string (Some s) fallback = s.
Proof. intros Hs. unfold or_string. by rewrite bool_decide_eq_false_2. Qed.

Lemma archive_entry_served (pathExists : string → bool) (st : MemStorage)
    (parsed : option Z) :
  archive_entry pathExists st parsed
  = served (downloadRoute parsed pathExists st).
Proof.
  unfold archive_entry, downloadRoute.
  destruct (lookup_parsed parsed st) as [conv|]; cbn; [|done].
  destruct (filePath conv) as [path|]; cbn.
  - destruct (decide (status conv = "completed")) as [Hst|Hst].
    + rewrite (bool_decide_eq_true_2 _ Hst).
      assert (bool_decide (status conv ≠ "completed") = false) as ->
        by (by apply bool_decide_eq_false; intros ?).
      cbn. destruct (decide (path = "")) as [->|Hp].
      * done.
      * rewrite bool_decide_eq_true_2, (bool_decide_eq_false_2 (path = ""))
          by done.
        cbn. by destruct (pathExists (downloadsPath path)).
    + rewrite (bool_decide_eq_false_2 _ Hst), (bool_decide_eq_true_2 _ Hst).
      done.
  - by destruct (bool_decide (status conv = "completed")).
Qed.

(** X18: the archive of [POST /api/download/bulk] holds, in the order of
    the identifiers, exactly the files that [GET /api/download/:id]
    would send for them one by one, under the same names; a single
    download that succeeds is the one entry of the archive requested
    for that identifier alone; and when the archive request is answered
    404, every single download of one of its identifiers is refused. *)
Theorem archive_agrees_with_downloads (pathExists : string → bool)
    (st : MemStorage) :
  (∀ ids name files,
     downloadBulk ids pathExists st = Attachment name files →
     files = omap (λ id, served (downloadRoute id pathExists st)) ids)
  ∧ (∀ id filePath name,
       downloadRoute id pathExists st = Download filePath name →
       downloadBulk [id] pathExists st
       = Attachment "converted_files.zip" [(filePath, name)])
  ∧ (∀ ids id,
       downloadBulk ids pathExists st
       = JsonMessage 404 "No valid files found for download" →
       id ∈ ids →
       downloadRoute id pathExists st
       = Refused 404 "File not found or conversion not completed").
Proof.
  split_and!.
  - intros ids name files. unfold downloadBulk.
    case_bool_decide; [done|]. case_bool_decide; [done|].
    intros [= <- <-]. rewrite archive_files_entries.
    generalize ids. intros l. induction l as [|id l IH]; [done|].
    cbn [omap list_omap]. by rewrite archive_entry_served, IH.
  - intros id path name Hd. unfold downloadBulk. cbn.
    pose proof (archive_entry_served pathExists st id) as Hentry.
    rewrite Hd in Hentry. cbn in Hentry.
    pose proof (archive_files_entries pathExists st [id]) as Hfiles.
    cbn [omap list_omap] in Hfiles. rewrite Hentry in Hfiles.
    cbn [map List.filter] in Hfiles.
    unfold downloadRoute in Hd.
    destruct (lookup_parsed id st) as [conv|] eqn:Hconv; [|done].
    destruct (filePath conv) as [p|] eqn:Hp; [|done].
    destruct (bool_decide (status conv ≠ "completed")) eqn:Hst; [done|].
    apply bool_decide_eq_false in Hst. apply dec_stable in Hst.
    cbn [is_valid] in *. rewrite Hp in *.
    rewrite (bool_decide_eq_true_2 (status conv = "completed")) in * by done.
    rewrite (bool_decide_eq_true_2 (Some p ≠ None)) in * by done.
    cbn in *. by rewrite Hfiles.
  - intros ids id. unfold downloadBulk.
    case_bool_decide; [done|]. case_bool_decide as Hnone; [|done].
    intros _ Hin.
    assert (is_valid (lookup_parsed id st) = false) as Hinvalid.
    { apply not_true_is_false. intros Hvalid.
      apply length_zero_iff_nil in Hnone.
      assert (lookup_parsed id st
              ∈ List.filter is_valid (map (λ id, lookup_parsed id st) ids))
        as Hmem.
      { apply list_elem_of_In, filter_In. split; [|done].
        apply in_map_iff. exists id. split; [done|].
        by apply list_elem_of_In. }
      rewrite Hnone in Hmem. by apply not_elem_of_nil in Hmem. }
    unfold downloadRoute, is_valid in *.
    destruct (lookup_parsed id st) as [conv|]; [|done].
    destruct (filePath conv) as [p|]; [|done].
    rewrite (bool_decide_eq_true_2 (Some p ≠ None)) in Hinvalid by done.
    rewrite andb_true_r in Hinvalid.
    apply bool_decide_eq_false in Hinvalid.
    by rewrite (bool_decide_eq_true_2 (status conv ≠ "completed")).
Qed.


Lemma display_name_nonempty (t : string) (k : Z) : display_name t k ≠ "".
Proof. unfold display_name. by destruct t. Qed.

Lemma artifact_key_nonempty (k now : Z) : artifact_key k now ≠ "".
Proof. unfold artifact_key. by destruct (pretty k). Qed.

(** X20: in every reachable state, [GET /api/download/:id] refuses a
    stored job that is not completed; for a completed job it sends the
    file at the job's artifact location under the job's own file name
    (the cleaned title, ["_"], the identifier, [".mp3"]) when the file
    exists, and answers 404 "File no longer exists" when it does not.
    The fallback name ["audio.mp3"] is never used. *)
Theorem download_of_reachable_job (s : system) (k : Z) (c : Conversion)
    (pathExists : string → bool) :
  reachable s →
  getConversion k (store s) = Some c →
  (status c ≠ "completed" →
   downloadRoute (Some k) pathExists (store s)
   = Refused 404 "File not found or conversion not completed")
  ∧ (status c = "completed" →
     ∃ t now,
       title c = Some t
       ∧ downloadRoute (Some k) pathExists (store s)
         = if pathExists (downloadsPath (artifact_key k now))
           then Download (downloadsPath (artifact_key k now))
                         (display_name t k)
           else Refused 404 "File no longer exists").
Proof.
  intros Hs Hc. unfold downloadRoute, lookup_parsed. cbn. rewrite Hc.
  destruct (stored_job_facts s k c Hs Hc) as (stg & _ & Hcons & Hdesc).
  split.
  - intros Hst. destruct (filePath c); [|done].
    by rewrite (bool_decide_eq_true_2 (status c ≠ "completed")).
  - intros Hst.
    destruct stg as [[conv|]| | | |]; cbn in Hcons;
      try (destruct Hcons as (Hst' & _); congruence); [done|].
    destruct Hdesc as (_ & _ & Hdone & _).
    destruct (Hdone Hst) as (t & now & Ht & Hname & Hpath).
    exists t, now. split; [done|]. rewrite Hpath, Hname.
    rewrite or_string_nonempty by apply display_name_nonempty.
    assert (bool_decide (status c ≠ "completed") = false) as ->
      by (by apply bool_decide_eq_false; intros ?).
    by rewrite (bool_decide_eq_false_2 (artifact_key k now = ""))
      by apply artifact_key_nonempty.
Qed.
End MoreRouteFacts.

(** * The page *)

Lemma filter_index_ext {A : Type} (keep keep' : nat → bool) (i : nat)
    (l : list A) :
  (∀ j, (i ≤ j)%nat → keep j = keep' j) →
  Page.filter_index keep i l = Page.filter_index keep' i l.
Proof.
  revert i. induction l as [|x l IH]; intros i Hext; [done|]. cbn.
  rewrite (Hext i) by lia. rewrite (IH (S i)); [done|].
  intros j Hj. apply Hext. lia.
Qed.

Lemma filter_index_all {A : Type} (keep : nat → bool) (i : nat) (l : list A) :
  (∀ j, (i ≤ j)%nat → keep j = true) → Page.filter_index keep i l = l.
Proof.
  revert i. induction l as [|x l IH]; intros i Hkeep; [done|]. cbn.
  rewrite (Hkeep i) by lia. f_equal. apply IH. intros j Hj. apply Hkeep. lia.
Qed.

Lemma filter_index_remove {A : Type} (index i : nat) (l : list A) :
  Page.filter_index (λ j, negb (j =? i + index)%nat) i l
  = (take index l ++ drop (S index) l)%list.
Proof.
  revert index i. induction l as [|x l IH]; intros index i;
    [by destruct index|].
  cbn [Page.filter_index]. destruct index as [|index].
  - rewrite Nat.add_0_r, Nat.eqb_refl. cbn. apply filter_index_all.
    intros j Hj. apply negb_true_iff, Nat.eqb_neq. lia.
  - destruct (Nat.eqb_spec i (i + S index)) as [Heq|_]; [lia|]. cbn.
    f_equal. rewrite <- (IH index (S i)). apply filter_index_ext.
    intros j _. by replace (i + S index)%nat with (S i + index)%nat by lia.
Qed.

Lemma map_index_miss (target i : nat) (value : string) (l : list string) :
  (target < i)%nat →
  Page.map_index (λ url j, if (j =? target)%nat then value else url) i l = l.
Proof.
  revert i. induction l as [|x l IH]; intros i Hlt; [done|]. cbn.
  destruct (Nat.eqb_spec i target) as [Heq|_]; [lia|].
  f_equal. apply IH. lia.
Qed.

Lemma map_index_update (index i : nat) (value : string) (l : list string) :
  Page.map_index (λ url j, if (j =? i + index)%nat then value else url) i l
  = <[index := value]> l.
Proof.
  revert index i. induction l as [|x l IH]; intros index i; [done|].
  cbn [Page.map_index]. destruct index as [|index]; cbn.
  - rewrite Nat.add_0_r, Nat.eqb_refl. f_equal. apply map_index_miss. lia.
  - destruct (Nat.eqb_spec i (i + S index)) as [Heq|_]; [lia|].
    f_equal. replace (i + S index)%nat with (S i + index)%nat by lia.
    apply (IH index (S i)).
Qed.

(** X22: the handlers that edit the list of URL fields.  Removing field
    [index] deletes exactly that position, and updating it replaces
    exactly that position; both leave the list as it is when [index] is
    not a position of the list.  Removing can empty the list; a field
    added at the end is the one a removal or update at the old length
    hits. *)
Theorem url_fields_edit (index : nat) (value : string) (prev : list string) :
  Page.removeUrlField index prev
  = (take index prev ++ drop (S index) prev)%list
  ∧ Page.updateUrl index value prev = <[index := value]> prev
  ∧ length (Page.updateUrl index value prev) = length prev
  ∧ ((index < length prev)%nat →
     length (Page.removeUrlField index prev) = pred (length prev)
     ∧ Page.updateUrl index value prev !! index = Some value)
  ∧ ((length prev ≤ index)%nat →
     Page.removeUrlField index prev = prev
     ∧ Page.updateUrl index value prev = prev)
  ∧ Page.removeUrlField (length prev) (Page.addUrlField prev) = prev
  ∧ Page.updateUrl (length prev) value (Page.addUrlField prev)
    = (prev ++ [value])%list.
Proof.
  assert (∀ i l, Page.removeUrlField i l
                 = (take i l ++ drop (S i) l)%list) as Hremove.
  { intros i l. apply (filter_index_remove i 0). }
  assert (∀ i v l, Page.updateUrl i v l = <[i := v]> l) as Hupdate.
  { intros i v l. apply (map_index_update i 0). }
  rewrite !Hremove, !Hupdate. split_and!.
  - done.
  - done.
  - apply length_insert.
  - intros Hlt. split.
    + rewrite length_app, length_take, length_drop. lia.
    + by apply list_lookup_insert_eq.
  - intros Hge. split.
    + rewrite take_ge, drop_ge by lia. apply app_nil_r.
    + by apply list_insert_ge.
  - unfold Page.addUrlField. rewrite take_app_length, drop_ge; [apply app_nil_r|].
    rewrite length_app. cbn. lia.
  - unfold Page.addUrlField.
    rewrite insert_app_r_alt, Nat.sub_diag by lia. done.
Qed.

(** X23: toggling a file's selection twice restores the selection;
    one toggle flips the membership of that file and of no other. *)
Theorem toggle_selection (id : Z) (prev : gset Z) :
  Page.toggleFileSelection id (Page.toggleFileSelection id prev) = prev
  ∧ (id ∈ Page.toggleFileSelection id prev ↔ id ∉ prev)
  ∧ ∀ other, other ≠ id →
      (other ∈ Page.toggleFileSelection id prev ↔ other ∈ prev).
Proof.
  unfold Page.toggleFileSelection. split_and!.
  - destruct (decide (id ∈ prev)) as [Hin|Hin].
    + rewrite decide_False by set_solver.
      apply set_eq. intros x. destruct (decide (x = id)); set_solver.
    + rewrite decide_True by set_solver. set_solver.
  - case_decide; set_solver.
  - intros other Hother. case_decide; set_solver.
Qed.

Section PageAndRoutes.
Context `{!Collaborators}.

(** X24: what the page submits.  With no non-blank field it sends
    nothing; with exactly one it calls the single route with that URL;
    otherwise it sends all non-blank fields, in order, to the bulk
    route, and such a batch has at least two references.  The page does
    not cap the batch: when more than ten fields are filled in, the
    bulk route answers 400 and creates nothing. *)
Theorem startConversion_dispatch (blank : string → bool) (urls : list string) :
  let validUrls := List.filter (λ url, negb (blank url)) urls in
  (validUrls = [] ↔ Page.startConversion blank urls = Page.NoUrls)
  ∧ (∀ url, Page.startConversion blank urls = Page.PostSingle url ↔
            validUrls = [url])
  ∧ ∀ batch,
      Page.startConversion blank urls = Page.PostBulk batch →
      batch = validUrls ∧ (2 ≤ length batch)%nat
      ∧ ((10 < length batch)%nat →
         ∀ now awaits s,
           postBulk batch now awaits s
           = (JsonMessage 400 "Invalid request data", s)).
Proof.
  intros validUrls. unfold Page.startConversion. fold validUrls.
  destruct validUrls as [|u [|u' rest]]; split_and!; try done.
  - by intros url; split; intros [= ->].
  - intros batch [= <-]. split_and!; [done|cbn; lia|].
    intros Hlen now awaits s. unfold postBulk.
    rewrite bulkConversionSchema_refuses; [done|]. right; left. done.
Qed.
End PageAndRoutes.

(** * The added properties on concrete inputs *)

#[local] Existing Instance sample.

Lemma sample_store_wf : store_wf sample_store.
Proof.
  apply (store_apply_wf newMemStorage (OpCreate {| ins_url := sample_url |} 1000)).
  apply store_wf_new.
Qed.

Lemma createConversion_fresh_id_witness :
  let created := (createConversion second_insert 2000 sample_store).1 in
  let st' := (createConversion second_insert 2000 sample_store).2 in
  getConversion (id created) sample_store = None
  ∧ getConversion (id created) st' = Some created
  ∧ (∀ k, k ≠ id created → getConversion k st' = getConversion k sample_store)
  ∧ store_wf st'
  ∧ ∀ ops insertConversion' now',
      id created
      < id (createConversion insertConversion' now' (store_run ops st')).1.
Proof.
  apply (createConversion_fresh_id second_insert 2000 sample_store).
  apply (store_apply_wf newMemStorage (OpCreate {| ins_url := sample_url |} 1000)).
  apply store_wf_new.
Defined.

Lemma iteration_is_insertion_order_witness :
  StronglySorted Z.lt (iteration sample_store).*1
  ∧ (∀ id, JsMap.get id (iteration sample_store) = getConversion id sample_store)
  ∧ (∀ insertConversion now,
       iteration (createConversion insertConversion now sample_store).2
       = JsMap.set (currentConversionId sample_store)
           (createConversion insertConversion now sample_store).1
           (iteration sample_store)
       ∧ iteration (createConversion insertConversion now sample_store).2
         = (iteration sample_store
            ++ [(currentConversionId sample_store,
                 (createConversion insertConversion now sample_store).1)])%list)
  ∧ (∀ id updates,
       iteration (updateConversion id updates sample_store).2
       = match JsMap.get id (iteration sample_store) with
         | Some existing =>
             JsMap.set id (spread existing updates) (iteration sample_store)
         | None => iteration sample_store
         end)
  ∧ (∀ id, iteration (deleteConversion id sample_store).2
           = JsMap.delete id (iteration sample_store)).
Proof.
  apply (iteration_is_insertion_order sample_store).
  apply (store_apply_wf newMemStorage (OpCreate {| ins_url := sample_url |} 1000)).
  apply store_wf_new.
Defined.

Lemma getAllConversions_newest_first_witness :
  getAllConversions (store later_state)
    ≡ₚ JsMap.values (iteration (store later_state))
  ∧ (∀ c, c ∈ getAllConversions (store later_state)
          ↔ ∃ k, getConversion k (store later_state) = Some c)
  ∧ length (getAllConversions (store later_state))
    = size (conversions (store later_state))
  ∧ Sorted newer_or_same (getAllConversions (store later_state))
  ∧ ∀ t, filter (λ c, created_time c = t)
           (getAllConversions (store later_state))
         = filter (λ c, created_time c = t)
             (JsMap.values (iteration (store later_state))).
Proof.
  apply (getAllConversions_newest_first (store later_state)).
  apply reachable_store_wf.
  apply (reachable_run (one_done_one_failed ++ later_actions) boot);
    [constructor|].
  vm_compute. reflexivity.
Defined.

(** On that store the listing puts job 3, created last, in front of
    job 1. *)
Example listing_after_later_actions :
  id <$> getAllConversions (store later_state) = [3; 1].
Proof. by vm_compute. Qed.

Lemma getConversionsByStatus_exact_witness :
  (∀ c, c ∈ getConversionsByStatus "completed" (store done_and_failed_state)
        ↔ status c = "completed"
          ∧ ∃ k, getConversion k (store done_and_failed_state) = Some c)
  ∧ getConversionsByStatus "completed" (store done_and_failed_state)
      `sublist_of` JsMap.values (iteration (store done_and_failed_state))
  ∧ Forall (λ c, status c = "completed")
      (getConversionsByStatus "completed" (store done_and_failed_state)).
Proof.
  apply (getConversionsByStatus_exact "completed"
           (store done_and_failed_state)).
  apply reachable_store_wf.
  apply (reachable_run one_done_one_failed boot); [constructor|].
  vm_compute. reflexivity.
Defined.

Lemma createUser_then_lookup_witness :
  let user := (Users.createUser ada sample_users).1 in
  let st' := (Users.createUser ada sample_users).2 in
  Users.id user = Users.currentUserId sample_users
  ∧ Users.getUser (Users.id user) sample_users = None
  ∧ Users.getUser (Users.id user) st' = Some user
  ∧ (∀ k, k ≠ Users.id user →
          Users.getUser k st' = Users.getUser k sample_users)
  ∧ Users.getUserByUsername (Users.ins_username ada) st'
    = match Users.getUserByUsername (Users.ins_username ada) sample_users with
      | Some earlier => Some earlier
      | None => Some user
      end
  ∧ (∀ name, name ≠ Users.ins_username ada →
             Users.getUserByUsername name st'
             = Users.getUserByUsername name sample_users).
Proof.
  apply (createUser_then_lookup ada sample_users).
  apply createUser_wf, users_wf_new.
Defined.

(** The second user named "ada" is stored, but the lookup by name still
    finds the first. *)
Example second_ada_is_shadowed :
  Users.id <$> Users.getUserByUsername "ada" (Users.createUser ada sample_users).2
  = Some 1
  ∧ Users.id <$> Users.getUser 2 (Users.createUser ada sample_users).2 = Some 2.
Proof. by vm_compute. Qed.

Lemma getUserByUsername_first_witness :
  (Users.getUserByUsername "ada" sample_users = None
   ↔ ∀ k user, Users.getUser k sample_users = Some user →
               Users.username user ≠ "ada")
  ∧ ∀ user,
      Users.getUserByUsername "ada" sample_users = Some user →
      Users.username user = "ada"
      ∧ ∃ k, Users.getUser k sample_users = Some user
          ∧ ∀ k' user',
              Users.getUser k' sample_users = Some user' →
              Users.username user' = "ada" → k ≤ k'.
Proof.
  apply (getUserByUsername_first "ada" sample_users).
  apply createUser_wf, users_wf_new.
Defined.

Lemma job_columns_fixed_witness :
  (∀ k c, getConversion k (store done_and_failed_state) = Some c →
          id c = k ∧ is_Some (createdAt c))
  ∧ ∀ acts s' k c c',
      sys_run acts done_and_failed_state = Some s' →
      getConversion k (store done_and_failed_state) = Some c →
      getConversion k (store s') = Some c' →
      id c' = id c ∧ url c' = url c ∧ createdAt c' = createdAt c.
Proof.
  apply (job_columns_fixed done_and_failed_state).
  apply (reachable_run one_done_one_failed boot); [constructor|].
  vm_compute. reflexivity.
Defined.

Lemma title_written_once_witness :
  (∀ k c, getConversion k (store half_way_state) = Some c →
          (status c = "pending" → title c = None)
          ∧ (status c = "completed" → is_Some (title c)))
  ∧ ∀ acts s' k c c' t,
      sys_run acts half_way_state = Some s' →
      getConversion k (store half_way_state) = Some c →
      getConversion k (store s') = Some c' →
      title c = Some t → title c' = Some t.
Proof.
  apply (title_written_once half_way_state).
  apply (reachable_run half_way boot); [constructor|].
  vm_compute. reflexivity.
Defined.

Lemma terminal_record_is_final_witness :
  (overwritten_job = done_job
   ∨ ∃ percent,
       Advance 1 (ProgressReported percent) ∈ [report_after_end]
       ∧ overwritten_job
         = spread done_job (updates_progress (percentage percent)))
  ∧ (pipelines done_and_failed_state !! 1 = Some (Finished false) →
     overwritten_job = done_job).
Proof.
  apply (terminal_record_is_final done_and_failed_state [report_after_end]
           overwritten_state 1 done_job overwritten_job).
  - apply (reachable_run one_done_one_failed boot); [constructor|].
    vm_compute. reflexivity.
  - vm_compute. reflexivity.
  - vm_compute. reflexivity.
  - left. vm_compute. reflexivity.
  - vm_compute. reflexivity.
Defined.

(** Job 1 after the other actions, and after the late report. *)
Example terminal_record_on_runs :
  later_job = done_job
  ∧ overwritten_job = spread done_job (updates_progress 50).
Proof. by vm_compute. Qed.

Lemma progress_follows_status_witness :
  (∃ v, progress half_way_job = Some v
     ∧ (status half_way_job = "pending" ∧ v = 0
        ∨ status half_way_job = "processing" ∧ 5 ≤ v ≤ 95
        ∨ status half_way_job = "completed" ∧ (v = 100 ∨ 15 ≤ v ≤ 95)
        ∨ status half_way_job = "failed" ∧ 5 ≤ v ≤ 95))
  ∧ (is_Some (completedAt half_way_job) ↔ status half_way_job = "completed").
Proof.
  apply (progress_follows_status half_way_state 1 half_way_job).
  - apply (reachable_run half_way boot); [constructor|].
    vm_compute. reflexivity.
  - vm_compute. reflexivity.
Defined.

Lemma artifact_locations_distinct_witness :
  (∀ k c p,
     getConversion k (store done_and_failed_state) = Some c →
     filePath c = Some p →
     status c = "completed"
     ∧ ∃ t now, title c = Some t
         ∧ p = artifact_key k now
         ∧ fileName c = Some (display_name t k))
  ∧ ∀ k1 k2 c1 c2 p,
      getConversion k1 (store done_and_failed_state) = Some c1 →
      getConversion k2 (store done_and_failed_state) = Some c2 →
      filePath c1 = Some p → filePath c2 = Some p → k1 = k2.
Proof.
  apply (artifact_locations_distinct done_and_failed_state).
  apply (reachable_run one_done_one_failed boot); [constructor|].
  vm_compute. reflexivity.
Defined.

Lemma pipeline_finished_iff_terminal_witness :
  ∃ stg,
    pipelines half_way_state !! 1 = Some stg
    ∧ ((∃ transcoder, stg = Finished transcoder)
       ↔ terminal (status half_way_job))
    ∧ (¬ terminal (status half_way_job) →
       ∃ evs transcoder st' c',
         pipeline_run 1 stg evs (store half_way_state)
         = (Finished transcoder, st')
         ∧ getConversion 1 st' = Some c'
         ∧ terminal (status c')).
Proof.
  apply (pipeline_finished_iff_terminal half_way_state 1 half_way_job).
  - apply (reachable_run half_way boot); [constructor|].
    vm_compute. reflexivity.
  - vm_compute. reflexivity.
Defined.

Lemma pipeline_completes_witness :
  ∃ st',
    pipeline_run 1 (processConversion 1 sample_store)
      ([Resumed; InfoResolved "Song" 2000]
       ++ (ProgressReported <$> [Some (Finite 50); None])
       ++ [TranscodeEnded; StatResolved 4096 3000]) sample_store
    = (Finished true, st')
    ∧ getConversion 1 st'
      = Some {| id := id sample_job;
                url := url sample_job;
                title := Some (sanitize "Song");
                status := "completed";
                progress := Some 100;
                filePath := Some (artifact_key 1 2000);
                fileName := Some (display_name (sanitize "Song") 1);
                fileSize := Some 4096;
                errorMessage := errorMessage sample_job;
                createdAt := createdAt sample_job;
                completedAt := Some 3000 |}.
Proof.
  apply (pipeline_completes 1 sample_job sample_store "Song" 2000
           [Some (Finite 50); None] 4096 3000).
  reflexivity.
Defined.


Lemma postConversion_outcome_witness :
  (validateURL sample_url = false →
   postConversion sample_url 1000 boot
   = (JsonMessage 400 "Invalid YouTube URL", boot))
  ∧ (validateURL sample_url = true →
     ∃ c s',
       postConversion sample_url 1000 boot = (JsonConversion c, s')
       ∧ id c = currentConversionId (store boot)
       ∧ url c = sample_url ∧ status c = "pending" ∧ progress c = Some 0
       ∧ getConversion (id c) (store boot) = None
       ∧ getRoute (Some (id c)) (store s') = JsonConversion c
       ∧ (∃ cs, listRoute (store s') = JsonConversions cs ∧ c ∈ cs)
       ∧ pipelines s' !! id c = Some (Started (Some c))
       ∧ ∀ k, k ≠ id c →
           getConversion k (store s') = getConversion k (store boot)
           ∧ pipelines s' !! k = pipelines boot !! k).
Proof.
  apply (postConversion_outcome sample_url 1000 boot). apply store_wf_new.
Defined.


(** On that batch two jobs are created and the third reference is
    reported.  When the handler answers, the first job is already
    [processing] with progress 5, its pipeline having been resumed
    during the second [await]; the second job is still pending. *)
Example mixed_batch_outcome :
  (postBulk mixed_batch 1000 mixed_batch_awaits boot).1
  = JsonMessage 400 "Invalid YouTube URL: https://example.com/video"
  ∧ size (conversions
            (store (postBulk mixed_batch 1000 mixed_batch_awaits boot).2))
    = 2%nat
  ∧ getConversion 1
      (store (postBulk mixed_batch 1000 mixed_batch_awaits boot).2)
    = Some (spread (pending_record 1 sample_url 1000) updates_processing)
  ∧ pipelines (postBulk mixed_batch 1000 mixed_batch_awaits boot).2 !! 1
    = Some (FetchingInfo sample_url)
  ∧ getConversion 2
      (store (postBulk mixed_batch 1000 mixed_batch_awaits boot).2)
    = Some (pending_record 2 sample_url 1000)
  ∧ pipelines (postBulk mixed_batch 1000 mixed_batch_awaits boot).2 !! 2
    = Some (Started (Some (pending_record 2 sample_url 1000))).
Proof. by vm_compute. Qed.

(** With every reference valid, the answer lists the records as they
    were created, while the store already holds the first as
    [processing]. *)
Example valid_batch_answer :
  (postBulk [sample_url; sample_url] 1000 mixed_batch_awaits boot).1
  = JsonConversions [pending_record 1 sample_url 1000;
                     pending_record 2 sample_url 1000]
  ∧ status <$> getConversion 1
      (store (postBulk [sample_url; sample_url] 1000 mixed_batch_awaits
                boot).2)
    = Some "processing".
Proof. by vm_compute. Qed.

Lemma postBulk_schema_bounds_witness :
  postBulk (replicate 11 sample_url) 1000 mixed_batch_awaits boot
  = (JsonMessage 400 "Invalid request data", boot).
Proof.
  apply (postBulk_schema_bounds (replicate 11 sample_url) 1000
           mixed_batch_awaits boot).
  right. left. cbn. lia.
Defined.

Lemma download_of_reachable_job_witness :
  (status done_job ≠ "completed" →
   downloadRoute (Some 1) (λ _, true) (store done_and_failed_state)
   = Refused 404 "File not found or conversion not completed")
  ∧ (status done_job = "completed" →
     ∃ t now,
       title done_job = Some t
       ∧ downloadRoute (Some 1) (λ _, true) (store done_and_failed_state)
         = if (λ _ : string, true) (downloadsPath (artifact_key 1 now))
           then Download (downloadsPath (artifact_key 1 now))
                         (display_name t 1)
           else Refused 404 "File no longer exists").
Proof.
  apply (download_of_reachable_job done_and_failed_state 1 done_job
           (λ _, true)).
  - apply (reachable_run one_done_one_failed boot); [constructor|].
    vm_compute. reflexivity.
  - vm_compute. reflexivity.
Defined.

(** The completed job of that state is sent under its own name. *)
Example download_of_done_job :
  downloadRoute (Some 1) (λ _, true) (store done_and_failed_state)
  = Download "downloads/1_2000.mp3" "Song_1.mp3".
Proof. by vm_compute. Qed.

Lemma stored_urls_valid_witness :
  validateURL (url done_job) = true
  ∧ ∀ u, pipelines done_and_failed_state !! 1 = Some (FetchingInfo u) →
         u = url done_job.
Proof.
  apply (stored_urls_valid done_and_failed_state 1 done_job).
  - apply (reachable_run one_done_one_failed boot); [constructor|].
    vm_compute. reflexivity.
  - vm_compute. reflexivity.
Defined.
